(** * Oxide: a shallow embedding of [oxide::Vec], [oxide::find] and the
      owning [oxide::Option<T>]

    The development follows the two headers of the library:

    - [include/oxide.hpp]: [Vec<T>] (a [std::vector<T>] behind a Rust-like
      interface, with its draining iterator), and the free function [find].
      In that header [Option<T>] is an alias of [std::optional<T>]; it is
      rendered here by Rocq's [option].
    - the stand-alone option header: the hand-written class [Option<T>]
      (inline buffer plus presence flag), rendered by the record
      [OwnOption.Option].

    Conventions.
    - [size_t] indices are natural numbers.  On the paths modelled here the
      code only compares indices with [size()] and increments the cursor of
      the draining iterator below [end_ <= size()], so no unsigned
      wrap-around can occur.
    - A C++ member function is a computation [M S A] over the object state
      [S]: it returns a value, throws (the state at the throw point is kept,
      since the caller can observe it in a handler), panics (the program is
      over), or has undefined behaviour (a violated precondition of a
      [std::vector] primitive, a read of storage that holds no object).
    - Moving out of an object leaves it in a moved-from state; the section
      variable [moved] gives that state ([moved x = x] for trivially
      copyable types such as [int]). *)

From stdpp Require Import base option list strings.

(** ** Outcomes of C++ computations *)

Inductive exn : Type :=
  | out_of_range (what : string).

Inductive res (S A : Type) : Type :=
  | Ret (a : A) (s : S)
  | Throw (e : exn) (s : S)
  | Panic (msg : string)
  | Undefined.
Arguments Ret {S A} a s.
Arguments Throw {S A} e s.
Arguments Panic {S A} msg.
Arguments Undefined {S A}.

Definition M (S A : Type) : Type := S → res S A.

Definition M_ret {S A} (a : A) : M S A := λ s, Ret a s.

Definition M_bind {S A B} (f : A → M S B) (m : M S A) : M S B :=
  λ s, match m s with
       | Ret a s' => f a s'
       | Throw e s' => Throw e s'
       | Panic msg => Panic msg
       | Undefined => Undefined
       end.

Global Instance M_mret {S} : MRet (M S) := λ A, @M_ret S A.
Global Instance M_mbind {S} : MBind (M S) := λ A B, @M_bind S A B.

Definition throw {S A} (e : exn) : M S A := λ s, Throw e s.
Definition undefined {S A} : M S A := λ _, Undefined.
Definition get_state {S} : M S S := λ s, Ret s s.

(** Modelled from the spec: [panic] is declared in [output.hpp], which is not
    part of the sources at hand.  The specification describes a call of an
    accessor on an absent container as "a fatal contract violation
    (abort-class failure, not a recoverable error)": [panic msg] ends the
    program with [msg] and never returns to its caller. *)
Definition panic {S A} (msg : string) : M S A := λ _, Panic msg.

(** ** The [std::vector<T>] primitives used by [Vec<T>]

    The element sequence of the vector is a [list T].  A reference or an
    iterator into the vector is the position it designates.  Each primitive
    has the precondition of the C++ standard; outside of it the behaviour is
    undefined. *)

Module StdVector.
Section StdVector.
Context {T : Type}.

Definition vector : Type := list T.

Definition size (v : vector) : nat := length v.
Definition empty (v : vector) : bool := bool_decide (length v = 0).

(** [push_back(std::move(value))] *)
Definition push_back (x : T) : M vector () :=
  λ v, Ret () (v ++ [x]).

(** [pop_back()]: undefined on an empty vector *)
Definition pop_back : M vector () :=
  λ v, if empty v then Undefined else Ret () (take (length v - 1) v).

(** [back()]: a reference to the last element, undefined when empty *)
Definition back : M vector nat :=
  λ v, if empty v then Undefined else Ret (length v - 1) v.

(** [insert(begin() + pos, std::move(value))]: [pos] must lie in
    [[0, size()]] *)
Definition insert (pos : nat) (x : T) : M vector () :=
  λ v, if bool_decide (pos ≤ length v)
       then Ret () (take pos v ++ x :: drop pos v)
       else Undefined.

(** [erase(begin() + pos)]: [pos] must designate an element *)
Definition erase (pos : nat) : M vector () :=
  λ v, if bool_decide (pos < length v)
       then Ret () (take pos v ++ drop (S pos) v)
       else Undefined.

(** [erase(begin() + first, begin() + last)]: [[first, last)] must be a
    valid range of the vector *)
Definition erase_range (first last : nat) : M vector () :=
  λ v, if bool_decide (first ≤ last ∧ last ≤ length v)
       then Ret () (take first v ++ drop last v)
       else Undefined.
End StdVector.
End StdVector.

(** ** [oxide::Vec<T>] *)

Module Vec.
Section Vec.
Context {T : Type}.

(** The state an object is left in after its value has been moved out. *)
Variable moved : T → T.

(** [struct Vec : protected std::vector<T>] has no member of its own. *)
Definition Vec : Type := @StdVector.vector T.

(** [std::reference_wrapper<T>] onto [data()[index]] *)
Definition reference_wrapper : Type := nat.

(** Reading through a reference: undefined if it designates no element. *)
Definition read (r : reference_wrapper) : M Vec T :=
  λ v, match v !! r with
       | Some x => Ret x v
       | None => Undefined
       end.

(** [T value = std::move(r);]: move-construct from the referent, which is
    left in its moved-from state. *)
Definition move_from (r : reference_wrapper) : M Vec T :=
  λ v, match v !! r with
       | Some x => Ret x (<[r := moved x]> v)
       | None => Undefined
       end.

Definition len : M Vec nat :=
  λ v, Ret (StdVector.size v) v.

Definition is_empty : M Vec bool :=
  λ v, Ret (StdVector.empty v) v.

Definition clear : M Vec () :=
  λ _, Ret () [].

Definition truncate (len : nat) : M Vec () :=
  v ← get_state;
  if bool_decide (len < StdVector.size v)
  then StdVector.erase_range len (StdVector.size v)
  else mret ().

Definition get (index : nat) : M Vec (option reference_wrapper) :=
  v ← get_state;
  if bool_decide (index < StdVector.size v)
  then mret (Some index)
  else mret None.

(** [operator[]] *)
Definition index_op (index : nat) : M Vec reference_wrapper :=
  opt ← get index;
  match opt with
  | None => throw (out_of_range "index out of bounds")
  | Some r => mret r
  end.

Definition pop : M Vec (option T) :=
  v ← get_state;
  if StdVector.empty v then mret None
  else
    r ← StdVector.back;
    value ← move_from r;
    StdVector.pop_back;;
    mret (Some value).

Definition push (value : T) : M Vec () :=
  StdVector.push_back value.

Definition insert (index : nat) (value : T) : M Vec () :=
  v ← get_state;
  if bool_decide (StdVector.size v < index)
  then throw (out_of_range "insert index out of bounds")
  else StdVector.insert index value.

Definition remove (index : nat) : M Vec T :=
  v ← get_state;
  if bool_decide (StdVector.size v ≤ index)
  then throw (out_of_range "remove index out of bounds")
  else
    r ← index_op index;
    value ← move_from r;
    StdVector.erase index;;
    mret value.

(** [push] of each value of [xs] in turn, and [n] calls of [pop] whose
    results are collected in the order of the calls. *)
Fixpoint push_all (xs : list T) : M Vec () :=
  match xs with
  | [] => mret ()
  | x :: xs' => push x;; push_all xs'
  end.

Fixpoint pop_n (n : nat) : M Vec (list (option T)) :=
  match n with
  | 0 => mret []
  | S n' =>
      o ← pop;
      os ← pop_n n';
      mret (o :: os)
  end.

(** *** The draining iterator *)

(** A [Vec<T>*]: null, or the address of the vector the computation runs
    on. *)
Inductive ptr : Type := nullptr | this.

Global Instance ptr_eq_dec : EqDecision ptr.
Proof. solve_decision. Defined.

Record DrainIterator : Type := mkDrainIterator {
  vec_ : ptr;
  start_ : nat;
  index_ : nat;
  end_ : nat;
}.

Record DrainSentinel : Type := mkDrainSentinel {
  sent_vec_ : ptr;
  sent_end_ : nat;
}.

(** [vec_->size()] *)
Definition ptr_size (p : ptr) : M Vec nat :=
  match p with
  | nullptr => undefined
  | this => len
  end.

(** [DrainIterator(Vec<T>* vec, size_t start, size_t end)] *)
Definition DrainIterator_new (vec : ptr) (start end' : nat)
  : M Vec DrainIterator :=
  n ← ptr_size vec;
  if bool_decide (end' < start) || bool_decide (n < end')
  then throw (out_of_range "drain range out of bounds")
  else mret (mkDrainIterator vec start start end').

(** [DrainIterator(DrainIterator&& other)]: the new iterator, and [other]
    as the constructor leaves it. *)
Definition DrainIterator_move (other : DrainIterator)
  : DrainIterator * DrainIterator :=
  (mkDrainIterator (vec_ other) (start_ other) (index_ other) (end_ other),
   mkDrainIterator nullptr (start_ other) (index_ other) (end_ other)).

(** The dereference operator: an rvalue reference to element [index_] of
    the vector behind [vec_], obtained through [Vec]'s indexing operator;
    the caller may move from it. *)
Definition DrainIterator_deref (it : DrainIterator)
  : M Vec reference_wrapper :=
  match vec_ it with
  | nullptr => undefined
  | this => index_op (index_ it)
  end.

(** [operator++()] *)
Definition DrainIterator_incr (it : DrainIterator) : DrainIterator :=
  mkDrainIterator (vec_ it) (start_ it) (S (index_ it)) (end_ it).

(** [operator==(const DrainIterator&, const DrainSentinel&)] *)
Definition DrainIterator_eq_sentinel
    (it : DrainIterator) (sent : DrainSentinel) : bool :=
  bool_decide (vec_ it = sent_vec_ sent)
  && bool_decide (index_ it = sent_end_ sent).

(** [~DrainIterator()] *)
Definition DrainIterator_delete (it : DrainIterator) : M Vec () :=
  match vec_ it with
  | this => StdVector.erase_range (start_ it) (end_ it)
  | nullptr => mret ()
  end.

(** [std::ranges::subrange<DrainIterator, DrainSentinel>] *)
Record subrange : Type := mksubrange {
  begin_ : DrainIterator;
  sentinel_ : DrainSentinel;
}.

(** The constructor of [subrange] takes the iterator by value and moves
    it into its member; the argument is destroyed when the constructor
    returns. *)
Definition subrange_new (i : DrainIterator) (s : DrainSentinel)
  : M Vec subrange :=
  let '(member, i') := DrainIterator_move i in
  DrainIterator_delete i';;
  mret (mksubrange member s).

(** [subrange::begin()] of a move-only iterator moves the member out. *)
Definition subrange_begin (r : subrange) : DrainIterator * subrange :=
  let '(it, member') := DrainIterator_move (begin_ r) in
  (it, mksubrange member' (sentinel_ r)).

Definition subrange_delete (r : subrange) : M Vec () :=
  DrainIterator_delete (begin_ r).

(** [drain(range)]; [range] is the pair of indices that the lambda at the
    head of the function extracts from its argument. *)
Definition drain (range : nat * nat) : M Vec subrange :=
  let '(start, end') := range in
  v ← get_state;
  if bool_decide (end' < start) || bool_decide (StdVector.size v < end')
  then throw (out_of_range "drain range out of bounds")
  else
    i ← DrainIterator_new this start end';
    subrange_new i (mkDrainSentinel this end').

(** The loop [for (T x : r) { ...; if (enough) break; }] over the
    iterator [it] of a drain, leaving after at most [k] elements.  Each
    element is moved into [x]; the elements obtained are collected. *)
Fixpoint drain_loop (k : nat) (it : DrainIterator) (sent : DrainSentinel)
  : M Vec (list T * DrainIterator) :=
  match k with
  | 0 => mret ([], it)
  | S k' =>
      if DrainIterator_eq_sentinel it sent then mret ([], it)
      else
        r ← DrainIterator_deref it;
        x ← move_from r;
        '(xs, it') ← drain_loop k' (DrainIterator_incr it) sent;
        mret (x :: xs, it')
  end.

(** A complete use of [drain]: take the range, iterate over at most [k]
    of its elements, leave the scope (the iterator of the loop is
    destroyed, then the subrange). *)
Definition drain_scope (range : nat * nat) (k : nat) : M Vec (list T) :=
  r ← drain range;
  let '(it, r') := subrange_begin r in
  '(xs, it') ← drain_loop k it (sentinel_ r');
  DrainIterator_delete it';;
  subrange_delete r';;
  mret xs.

(** [drain] whose result is dropped without asking for its iterator. *)
Definition drain_drop (range : nat * nat) : M Vec () :=
  r ← drain range;
  subrange_delete r.

End Vec.
End Vec.

(** ** [oxide::find] *)

Module Find.
Section Find.
Context {T W : Type}.

Variable moved : T → T.

(** The range is the sequence of its elements; the predicate is any
    callable, which may read and write a state [W] of its own, throw or
    fail.  The loop visits the elements in order and returns at the first
    one the predicate accepts, moving it into the result; the range is
    returned as the call leaves it. *)
Fixpoint find (range : list T) (pred : T → M W bool)
  : M W (option T * list T) :=
  match range with
  | [] => mret (None, [])
  | item :: rest =>
      b ← pred item;
      if b : bool then mret (Some item, moved item :: rest)
      else
        '(found, rest') ← find rest pred;
        mret (found, item :: rest')
  end.

(** [rejects pred l w w']: called on the elements of [l] in order, from
    the state [w], [pred] returns [false] each time and leaves the state
    [w']. *)
Inductive rejects (pred : T → M W bool) : list T → W → W → Prop :=
  | rejects_nil w : rejects pred [] w w
  | rejects_cons x l w w1 w2 :
      pred x w = Ret false w1 →
      rejects pred l w1 w2 →
      rejects pred (x :: l) w w2.
End Find.

(** A predicate without effects, instrumented with the log of the
    elements it has been called on. *)
Definition logged {T} (p : T → bool) (x : T) : M (list T) bool :=
  λ log, Ret (p x) (log ++ [x]).
End Find.

(** ** The owning [oxide::Option<T>] *)

Module OwnOption.

Inductive none_t : Type := _none.

(** [m_storage] is the inline buffer: [Some x] when an object [x] lives in
    it, [None] when it holds no object.  [m_has_value] is the flag. *)
Record Option (T : Type) : Type := mkOption {
  m_storage : option T;
  m_has_value : bool;
}.
Arguments mkOption {T} _ _.
Arguments m_storage {T} _.
Arguments m_has_value {T} _.

Section OwnOption.
Context {T : Type}.

(** [Option()] *)
Definition Option_new : Option T := mkOption None false.

(** [Option(none_t)] *)
Definition Option_of_none (_ : none_t) : Option T := Option_new.

(** [Option(U&& value)], with [U = T] *)
Definition Option_of_value (value : T) : Option T :=
  mkOption (Some value) true.

(** The member functions below are computations on the object they are
    called on. *)
Definition has_value : M (Option T) bool :=
  self ← get_state;
  mret (m_has_value self).

(** Reading through [ptr()]: undefined when no object lives in the
    buffer. *)
Definition read_ptr : M (Option T) T :=
  self ← get_state;
  match m_storage self with
  | Some x => mret x
  | None => undefined
  end.

(** [value()], all four overloads: they differ only in the value category
    of the reference they return, and none of them writes to the object.
    What a caller then does through an rvalue reference it was handed is
    the caller's own action. *)
Definition value : M (Option T) T :=
  self ← get_state;
  (if negb (m_has_value self)
   then panic "called Option::value() on None"
   else mret ());;
  read_ptr.

Definition unwrap : M (Option T) T := value.

End OwnOption.

(** A call [self.m()] made by a computation over another state [W]; used
    for receivers that the call cannot change (a [const&] receiver) or
    that expire with it (an rvalue receiver). *)
Definition on {O W A} (self : O) (m : M O A) : M W A :=
  λ w, match m self with
       | Ret a _ => Ret a w
       | Throw e _ => Throw e w
       | Panic msg => Panic msg
       | Undefined => Undefined
       end.

Section and_then.
Context {T U W : Type}.

(** [and_then(f)], both overloads: [f] receives the held value (an rvalue
    of it for an rvalue receiver), and may act on a state [W] of its
    own. *)
Definition and_then (self : Option T) (f : T → M W (Option U))
  : M W (Option U) :=
  present ← on self has_value;
  if negb present then mret (Option_of_none _none)
  else
    x ← on self value;
    f x.
End and_then.

End OwnOption.

(** ** More of [oxide::Vec<T>]: the other members of the draining
       iterator and of its sentinel *)

(** A function declared [noexcept]: an exception that would leave it ends
    the program through [std::terminate] instead.  The end of the program
    is rendered by [Panic], with the name of that function as message. *)
Definition noexcept {S A} (m : M S A) : M S A :=
  λ s, match m s with
       | Throw _ _ => Panic "std::terminate"
       | r => r
       end.

Module VecOps.





Section VecOps.
Context {T : Type}.
Variable moved : T → T.

(** [DrainSentinel::operator DrainIterator() const noexcept] *)
Definition DrainSentinel_to_iterator (sent : Vec.DrainSentinel)
  : M (@Vec.Vec T) Vec.DrainIterator :=
  noexcept (Vec.DrainIterator_new (Vec.sent_vec_ sent)
              (Vec.sent_end_ sent) (Vec.sent_end_ sent)).

(** A drain in progress: the range is taken and the loop has run over at
    most [k] elements, but nothing is destroyed yet.  The iterator of the
    loop and the subrange are returned. *)
Definition drain_iterate (range : nat * nat) (k : nat)
  : M (@Vec.Vec T) (list T * Vec.DrainIterator * Vec.subrange) :=
  r ← Vec.drain range;
  let '(it, r') := Vec.subrange_begin r in
  '(xs, it') ← Vec.drain_loop moved k it (Vec.sentinel_ r');
  mret (xs, it', r').

(** [n] calls of [remove(i)] in a row, the elements removed collected in
    the order of the calls *)
Fixpoint remove_n (n : nat) (i : nat) : M (@Vec.Vec T) (list T) :=
  match n with
  | 0 => mret []
  | S n' =>
      x ← Vec.remove moved i;
      xs ← remove_n n' i;
      mret (x :: xs)
  end.

(** [DrainIterator& operator=(DrainIterator&& other)].  The iterators live
    in a store beside the vector and are designated by their address, so
    that [this != &other] can be decided. *)
Definition DrainIterator_move_assign (this other : nat)
  : M (@Vec.Vec T * list Vec.DrainIterator) () :=
  λ '(v, its),
    match its !! this, its !! other with
    | Some self, Some o =>
        if bool_decide (this ≠ other) then
          match Vec.DrainIterator_delete self v with
          | Ret _ v' =>
              Ret () (v',
                      <[other := Vec.mkDrainIterator Vec.nullptr
                                   (Vec.start_ o) (Vec.index_ o) (Vec.end_ o)]>
                        (<[this := Vec.mkDrainIterator (Vec.vec_ o)
                                     (Vec.start_ o) (Vec.index_ o)
                                     (Vec.end_ o)]> its))
          | Throw e v' => Throw e (v', its)
          | Panic msg => Panic msg
          | Undefined => Undefined
          end
        else Ret () (v, its)
    | _, _ => Undefined
    end.

End VecOps.
End VecOps.

(** ** More of the owning [oxide::Option<T>]: construction from another
       option, assignment, [reset], the other accessors *)

(** A member function run on the object at address [this] of a store of
    objects; a store lets two references designate the same object. *)
Definition at_ {O A} (this : nat) (m : M O A) : M (list O) A :=
  λ st, match st !! this with
        | None => Undefined
        | Some o =>
            match m o with
            | Ret a o' => Ret a (<[this := o']> st)
            | Throw e o' => Throw e (<[this := o']> st)
            | Panic msg => Panic msg
            | Undefined => Undefined
            end
        end.

Module OptionOps.
Import OwnOption.
Section OptionOps.
Context {T : Type}.

(** The state an object is left in after its value has been moved out. *)
Variable moved : T → T.

(** [std::construct_at(ptr(), x)] *)
Definition construct_at (x : T) : M (Option T) () :=
  λ self, Ret () (mkOption (Some x) (m_has_value self)).

(** [std::destroy_at(ptr())]: undefined when no object lives in the
    buffer *)
Definition destroy_at : M (Option T) () :=
  λ self, match m_storage self with
          | Some _ => Ret () (mkOption None (m_has_value self))
          | None => Undefined
          end.

(** [m_has_value = b] *)
Definition set_has_value (b : bool) : M (Option T) () :=
  λ self, Ret () (mkOption (m_storage self) b).

(** Move-construction of a [T] from the object in the buffer, which stays
    there in its moved-from state. *)
Definition move_out : M (Option T) T :=
  λ self, match m_storage self with
          | Some x => Ret x (mkOption (Some (moved x)) (m_has_value self))
          | None => Undefined
          end.

Definition reset : M (Option T) () :=
  self ← get_state;
  if m_has_value self then
    destroy_at;;
    set_has_value false
  else mret ().

(** [Option(const Option& other)], run on [other]; the result is the new
    object. *)
Definition Option_copy : M (Option T) (Option T) :=
  other ← get_state;
  if m_has_value other then
    x ← read_ptr;
    mret (mkOption (Some x) true)
  else mret Option_new.

(** [Option(Option&& other)], run on [other]; the result is the new
    object. *)
Definition Option_move : M (Option T) (Option T) :=
  other ← get_state;
  if m_has_value other then
    x ← move_out;
    reset;;
    mret (mkOption (Some x) true)
  else mret Option_new.

(** [operator=(const Option& other)] *)
Definition assign_copy (this other : nat) : M (list (Option T)) () :=
  if bool_decide (this ≠ other) then
    at_ this reset;;
    o ← at_ other get_state;
    if m_has_value o then
      x ← at_ other read_ptr;
      at_ this (construct_at x);;
      at_ this (set_has_value true)
    else mret ()
  else mret ().

(** [operator=(Option&& other)] *)
Definition assign_move (this other : nat) : M (list (Option T)) () :=
  if bool_decide (this ≠ other) then
    at_ this reset;;
    o ← at_ other get_state;
    if m_has_value o then
      x ← at_ other move_out;
      at_ this (construct_at x);;
      at_ this (set_has_value true);;
      at_ other reset
    else mret ()
  else mret ().

(** [operator=(U&& value)], with [U = T] *)
Definition assign_value (value : T) : M (Option T) () :=
  reset;;
  construct_at value;;
  set_has_value true.

(** [operator=(none_t)] *)
Definition assign_none (_ : none_t) : M (Option T) () := reset.

(** [expect(msg)], both overloads *)
Definition expect (msg : string) : M (Option T) T :=
  self ← get_state;
  (if negb (m_has_value self) then panic msg else mret ());;
  read_ptr.

(** [unwrap_or(default_value) const&]: a copy of the held value, or the
    default *)
Definition unwrap_or (default_value : T) : M (Option T) T :=
  self ← get_state;
  if m_has_value self then read_ptr else mret default_value.

(** [unwrap_or(default_value) &&]: the held value moved out, or the
    default *)
Definition unwrap_or_rvalue (default_value : T) : M (Option T) T :=
  self ← get_state;
  if m_has_value self then move_out else mret default_value.

(** The unchecked dereference operators *)
Definition deref : M (Option T) T := read_ptr.

(** The free functions [Some(T&&)] and [None<T>()] *)
Definition Some_ (value : T) : Option T := Option_of_value value.
Definition None_ : Option T := Option_of_none _none.

(** The invariant of the class: the flag is set exactly when an object
    lives in the buffer. *)
Definition wf (o : Option T) : Prop :=
  m_has_value o = true ↔ is_Some (m_storage o).

End OptionOps.
End OptionOps.

(** ** The reference specialisations [Option<T&>] and [Option<const T&>]

    Both hold one pointer, null when absent, and have the same members; the
    second only forbids writing through the reference.  A reference is the
    location it designates in a memory of [T] cells, which the option does
    not own. *)

Module RefOption.

Record Option_ref : Type := mkOption_ref {
  m_ptr : option nat;
}.

Section RefOption.
Context {S : Type}.

(** [Option()], [Option(none_t)] *)
Definition Option_ref_new : Option_ref := mkOption_ref None.

(** [Option(T& ref)], and the free function [Some(T&)] *)
Definition Option_ref_of (ref : nat) : Option_ref := mkOption_ref (Some ref).

Definition has_value (self : Option_ref) : bool :=
  bool_decide (m_ptr self ≠ None).

(** [value()]: the reference held *)
Definition value (self : Option_ref) : M S nat :=
  match m_ptr self with
  | None => panic "called Option::value() on None"
  | Some p => mret p
  end.

Definition unwrap (self : Option_ref) : M S nat := value self.

Definition expect (msg : string) (self : Option_ref) : M S nat :=
  match m_ptr self with
  | None => panic msg
  | Some p => mret p
  end.

(** [unwrap_or(default_value)], [noexcept]: one of two references *)
Definition unwrap_or (default_value : nat) (self : Option_ref) : nat :=
  match m_ptr self with
  | Some p => p
  | None => default_value
  end.

(** The unchecked dereference: undefined through a null pointer *)
Definition deref (self : Option_ref) : M S nat :=
  match m_ptr self with
  | None => undefined
  | Some p => mret p
  end.

(** [and_then(f)]: [f] receives the reference itself. *)
Definition and_then {U} (self : Option_ref)
    (f : nat → M S (OwnOption.Option U)) : M S (OwnOption.Option U) :=
  if negb (has_value self)
  then mret (OwnOption.Option_of_none OwnOption._none)
  else
    r ← value self;
    f r.

End RefOption.

(** Reading and writing a cell of the memory through a reference *)
Definition load {T} (r : nat) : M (list T) T :=
  λ mem, match mem !! r with
         | Some x => Ret x mem
         | None => Undefined
         end.

Definition store {T} (r : nat) (x : T) : M (list T) () :=
  λ mem, match mem !! r with
         | Some _ => Ret () (<[r := x]> mem)
         | None => Undefined
         end.

End RefOption.

(** ** The database example: a [Vec] of records driven by messages

    The program keeps [Vec<std::pair<std::string, int>> db] and handles
    the messages [Insert], [Update], [Delete], [Select] and [Noop] with the
    members of [Vec].  Its state is the vector and what it has written to
    [std::cout]; each [<<] appends one item. *)

Module DbExample.

Inductive item : Type :=
  | Str (s : string)
  | Int (z : Z).

(** The string made of the newline character alone *)
Definition nl : string := String (Ascii.ascii_of_nat 10) EmptyString.

(** What [<< "\n"] appends *)
Definition endl : item := Str nl.

Definition record : Type := string * Z.

Record St : Type := mkSt {
  db : list record;
  out : list item;
}.

Inductive Operation : Type :=
  | Insert (key : string) (value : Z)
  | Update (key : string) (new_value : Z)
  | Delete (key : string)
  | Select (key : string) (callback : Z → M St ())
  | Noop.

(** [std::cout << i1 << i2 << ...] *)
Definition cout (items : list item) : M St () :=
  λ s, Ret () (mkSt (db s) (out s ++ items)).

(** A member function of [db] *)
Definition on_db {A} (m : M (list record) A) : M St A :=
  λ s, match m (db s) with
       | Ret a v => Ret a (mkSt v (out s))
       | Throw e v => Throw e (mkSt v (out s))
       | Panic msg => Panic msg
       | Undefined => Undefined
       end.

(** [iter()] and [iter_mut()]: the references to the elements, from
    [begin()] to [end()] *)
Definition iter : M (list record) (list Vec.reference_wrapper) :=
  λ v, Ret (seq 0 (length v)) v.

Definition iter_mut : M (list record) (list Vec.reference_wrapper) := iter.

(** Assignment through a reference to an element *)
Definition write (r : Vec.reference_wrapper) (x : record)
  : M (list record) () :=
  λ v, match v !! r with
       | Some _ => Ret () (<[r := x]> v)
       | None => Undefined
       end.

Section handlers.
(** The state a record is left in after it has been moved from. *)
Variable moved : record → record.

Definition handle_insert (key : string) (value : Z) : M St () :=
  on_db (Vec.push (key, value));;
  cout [Str "Inserted: "; Str key; Str " -> "; Int value; endl].

(** The loop of the [Update] handler over [iter_mut()]; it returns
    [found]. *)
Fixpoint update_loop (refs : list Vec.reference_wrapper)
    (upd_key : string) (new_value : Z) : M St bool :=
  match refs with
  | [] => mret false
  | r :: refs' =>
      '(key, val) ← on_db (Vec.read r);
      if bool_decide (key = upd_key) then
        on_db (write r (key, new_value));;
        cout [Str "Updated: "; Str upd_key; Str "="; Int new_value; endl];;
        mret true
      else update_loop refs' upd_key new_value
  end.

Definition handle_update (key : string) (new_value : Z) : M St () :=
  refs ← on_db iter_mut;
  found ← update_loop refs key new_value;
  if negb found then cout [Str ("Update failed: key not found" +:+ nl)]
  else mret ().

(** The loop of the [Delete] handler, from index [i]; [len()] is read
    anew before each turn.  [fuel] bounds the number of turns; a loop
    that would go on beyond it is cut off with [Undefined]. *)
Fixpoint delete_loop (fuel : nat) (i : nat) (del_key : string)
  : M St bool :=
  n ← on_db Vec.len;
  if bool_decide (i < n) then
    match fuel with
    | 0 => undefined
    | S fuel' =>
        rec ← on_db (Vec.get i);
        matches ← match rec with
                   | Some r =>
                       '(key, _) ← on_db (Vec.read r);
                       mret (bool_decide (key = del_key))
                   | None => mret false
                   end;
        if matches : bool then
          '(key, val) ← on_db (Vec.remove moved i);
          cout [Str "Deleted: "; Str key; Str "="; Int val; endl];;
          mret true
        else delete_loop fuel' (S i) del_key
    end
  else mret false.

Definition handle_delete (key : string) : M St () :=
  n ← on_db Vec.len;
  found ← delete_loop n 0 key;
  if negb found then cout [Str ("Delete failed: key not found" +:+ nl)]
  else mret ().

(** The loop of the [Select] handler over [iter()] *)
Fixpoint select_loop (refs : list Vec.reference_wrapper)
    (sel_key : string) (callback : Z → M St ()) : M St bool :=
  match refs with
  | [] => mret false
  | r :: refs' =>
      '(key, val) ← on_db (Vec.read r);
      if bool_decide (key = sel_key) then
        callback val;;
        mret true
      else select_loop refs' sel_key callback
  end.

Definition handle_select (key : string) (callback : Z → M St ())
  : M St () :=
  refs ← on_db iter;
  found ← select_loop refs key callback;
  if negb found then cout [Str ("Select failed: key not found" +:+ nl)]
  else mret ().

(** [db_handler]: the dispatch of [match] over the alternatives *)
Definition db_handler (msg : Operation) : M St () :=
  match msg with
  | Insert key value => handle_insert key value
  | Update key new_value => handle_update key new_value
  | Delete key => handle_delete key
  | Select key callback => handle_select key callback
  | Noop => cout [Str ("No operation performed" +:+ nl)]
  end.

End handlers.
End DbExample.

(** * Properties *)

(** ** Running computations *)

Lemma run_bind {S A B} (m : M S A) (f : A → M S B) (s : S) :
  (m ≫= f) s = match m s with
               | Ret a s' => f a s'
               | Throw e s' => Throw e s'
               | Panic msg => Panic msg
               | Undefined => Undefined
               end.
Proof. reflexivity. Qed.

Lemma run_bind_ret {S A B} (m : M S A) (f : A → M S B) s a s' :
  m s = Ret a s' → (m ≫= f) s = f a s'.
Proof. intros E. rewrite run_bind, E. reflexivity. Qed.

Lemma run_bind_throw {S A B} (m : M S A) (f : A → M S B) s e s' :
  m s = Throw e s' → (m ≫= f) s = Throw e s'.
Proof. intros E. rewrite run_bind, E. reflexivity. Qed.

Lemma run_mret {S A} (a : A) (s : S) : (mret a : M S A) s = Ret a s.
Proof. reflexivity. Qed.

(** [step E]: the computation at the head of the goal returns as the
    equation [E] says; continue with the rest. *)
Ltac step E := rewrite (run_bind_ret _ _ _ _ _ E).

Lemma run_get_state {S B} (f : S → M S B) (s : S) :
  (get_state ≫= f) s = f s s.
Proof. reflexivity. Qed.

(** ** Facts on lists used below *)

Section list_facts.
Context {T : Type}.
Implicit Types (v : list T) (x : T).

Lemma lookup_insert_at v i x :
  i ≤ length v → (take i v ++ x :: drop i v) !! i = Some x.
Proof.
  intros Hi. rewrite lookup_app_r by (rewrite length_take; lia).
  rewrite length_take, Nat.min_l by lia. by rewrite Nat.sub_diag.
Qed.

Lemma lookup_insert_before v i j x :
  j < i → i ≤ length v → (take i v ++ x :: drop i v) !! j = v !! j.
Proof.
  intros Hj Hi. rewrite lookup_app_l by (rewrite length_take; lia).
  by rewrite lookup_take_lt.
Qed.

Lemma lookup_insert_after v i j x :
  i ≤ j → i ≤ length v → (take i v ++ x :: drop i v) !! S j = v !! j.
Proof.
  intros Hj Hi. rewrite lookup_app_r by (rewrite length_take; lia).
  rewrite length_take, Nat.min_l by lia.
  replace (S j - i) with (S (j - i)) by lia. simpl.
  rewrite lookup_drop. f_equal. lia.
Qed.

Lemma lookup_excise_before v a b j :
  j < a → a ≤ length v → (take a v ++ drop b v) !! j = v !! j.
Proof.
  intros Hj Ha. rewrite lookup_app_l by (rewrite length_take; lia).
  by rewrite lookup_take_lt.
Qed.

Lemma lookup_excise_after v a b j :
  a ≤ j → a ≤ b → b ≤ length v →
  (take a v ++ drop b v) !! j = v !! (j + (b - a)).
Proof.
  intros Hj Hab Hb. rewrite lookup_app_r by (rewrite length_take; lia).
  rewrite length_take, Nat.min_l by lia.
  rewrite lookup_drop. f_equal. lia.
Qed.

Lemma length_excise v a b :
  a ≤ b → b ≤ length v → length (take a v ++ drop b v) = length v - (b - a).
Proof.
  intros Hab Hb. rewrite length_app, length_take, length_drop. lia.
Qed.
End list_facts.

(** ** [Vec]: access, insertion, removal *)

Section Vec_props.
Context {T : Type}.
Variable moved : T → T.
Implicit Types (v : list T) (x : T).

Lemma get_in_bounds v index :
  index < length v → Vec.get index v = Ret (Some index) v.
Proof.
  intros Hi. unfold Vec.get. rewrite run_get_state.
  unfold StdVector.size. by rewrite bool_decide_eq_true_2.
Qed.

Lemma get_out_of_bounds v index :
  length v ≤ index → Vec.get index v = Ret None v.
Proof.
  intros Hi. unfold Vec.get. rewrite run_get_state.
  unfold StdVector.size. by rewrite bool_decide_eq_false_2 by lia.
Qed.

Lemma index_op_in_bounds v index :
  index < length v → Vec.index_op index v = Ret index v.
Proof.
  intros Hi. unfold Vec.index_op.
  by step (get_in_bounds v index Hi).
Qed.

Lemma read_lookup v index x :
  v !! index = Some x → Vec.read index v = Ret x v.
Proof.
  intros E. unfold Vec.read, Vec.Vec, StdVector.vector. by rewrite E.
Qed.

Lemma move_from_lookup v r x :
  v !! r = Some x → Vec.move_from moved r v = Ret x (<[r := moved x]> v).
Proof.
  intros E. unfold Vec.move_from, Vec.Vec, StdVector.vector. by rewrite E.
Qed.

Lemma erase_run v pos :
  pos < length v →
  StdVector.erase pos v = Ret () (take pos v ++ drop (S pos) v).
Proof.
  intros Hp. unfold StdVector.erase. by rewrite bool_decide_eq_true_2.
Qed.

Lemma erase_range_run v first last :
  first ≤ last → last ≤ length v →
  StdVector.erase_range first last v = Ret () (take first v ++ drop last v).
Proof.
  intros H1 H2. unfold StdVector.erase_range.
  by rewrite bool_decide_eq_true_2.
Qed.

(** C3: [get(index)] is present exactly when [index < length()]; the
    reference it wraps then designates the element at [index].  For every
    other index, [length()] itself and beyond, it is absent.  In both
    cases [get] returns normally and the vector is as it was. *)
Theorem get_spec v index :
  (index < length v →
     ∃ x, v !! index = Some x
          ∧ Vec.get index v = Ret (Some index) v
          ∧ Vec.read index v = Ret x v)
  ∧ (length v ≤ index → Vec.get index v = Ret None v).
Proof.
  split.
  - intros Hi. destruct (lookup_lt_is_Some_2 v index Hi) as [x Hx].
    exists x. auto using get_in_bounds, read_lookup.
  - apply get_out_of_bounds.
Qed.

(** C4: for [i <= length()], [insert(i, x)] returns normally, the length
    grows by one, [x] is at index [i] (and [get(i)] reaches it), the
    elements before [i] stay and every element previously at [j >= i] is
    at [j + 1]; for [i > length()] it throws [out_of_range] and the
    vector is as it was. *)
Theorem insert_spec v i x :
  (i ≤ length v →
     ∃ v', Vec.insert i x v = Ret () v'
           ∧ length v' = S (length v)
           ∧ Vec.get i v' = Ret (Some i) v'
           ∧ Vec.read i v' = Ret x v'
           ∧ (∀ j, j < i → v' !! j = v !! j)
           ∧ (∀ j, i ≤ j → v' !! S j = v !! j))
  ∧ (length v < i →
     Vec.insert i x v = Throw (out_of_range "insert index out of bounds") v).
Proof.
  split; intros Hi; unfold Vec.insert; rewrite run_get_state;
    unfold StdVector.size.
  - rewrite bool_decide_eq_false_2 by lia.
    unfold StdVector.insert. rewrite bool_decide_eq_true_2 by done.
    eexists; split; [reflexivity|].
    assert (Hlen : length (take i v ++ x :: drop i v) = S (length v)).
    { rewrite length_app, length_take. simpl. rewrite length_drop. lia. }
    repeat split.
    + done.
    + apply get_in_bounds. lia.
    + apply read_lookup, lookup_insert_at, Hi.
    + intros j Hj. by apply lookup_insert_before.
    + intros j Hj. by apply lookup_insert_after.
  - by rewrite bool_decide_eq_true_2.
Qed.

(** C5: for [i < length()], [remove(i)] returns the element that was at
    [i], the length shrinks by exactly one, the elements before [i] stay
    and every element previously at [j > i] is at [j - 1]; for
    [i >= length()] it throws [out_of_range] and the vector is as it
    was. *)
Theorem remove_spec v i :
  (i < length v →
     ∃ x v', v !! i = Some x
             ∧ Vec.remove moved i v = Ret x v'
             ∧ S (length v') = length v
             ∧ (∀ j, j < i → v' !! j = v !! j)
             ∧ (∀ j, i < j → v' !! (j - 1) = v !! j))
  ∧ (length v ≤ i →
     Vec.remove moved i v
     = Throw (out_of_range "remove index out of bounds") v).
Proof.
  split; intros Hi; unfold Vec.remove; rewrite run_get_state;
    unfold StdVector.size.
  - destruct (lookup_lt_is_Some_2 v i Hi) as [x Hx].
    exists x, (take i v ++ drop (S i) v).
    rewrite bool_decide_eq_false_2 by lia.
    step (index_op_in_bounds v i Hi).
    step (move_from_lookup v i x Hx).
    erewrite run_bind_ret by (apply erase_run; by rewrite length_insert).
    rewrite take_insert_ge, drop_insert_lt by lia.
    repeat split.
    + done.
    + rewrite length_excise by lia. lia.
    + intros j Hj. apply lookup_excise_before; lia.
    + intros j Hj. rewrite lookup_excise_after by lia. f_equal. lia.
  - by rewrite bool_decide_eq_true_2.
Qed.

(** C9: [truncate(len)] leaves the vector as it is when
    [len >= length()]; otherwise the vector has exactly [len] elements
    afterwards, which are its first [len] elements in their order.  It
    returns normally in every case. *)
Theorem truncate_spec v len :
  (length v ≤ len → Vec.truncate len v = Ret () v)
  ∧ (len < length v →
     ∃ v', Vec.truncate len v = Ret () v'
           ∧ v' = take len v
           ∧ length v' = len
           ∧ (∀ j, j < len → v' !! j = v !! j))
  ∧ (∃ v', Vec.truncate len v = Ret () v').
Proof.
  assert (Hlt : len < length v →
    Vec.truncate len v = Ret () (take len v)).
  { intros Hl. unfold Vec.truncate. rewrite run_get_state.
    unfold StdVector.size. rewrite bool_decide_eq_true_2 by done.
    rewrite erase_range_run by lia. by rewrite drop_all, app_nil_r. }
  assert (Hge : length v ≤ len → Vec.truncate len v = Ret () v).
  { intros Hl. unfold Vec.truncate. rewrite run_get_state.
    unfold StdVector.size. by rewrite bool_decide_eq_false_2 by lia. }
  split; [done|]. split.
  - intros Hl. exists (take len v). repeat split; [auto| |].
    + rewrite length_take. lia.
    + intros j Hj. by apply lookup_take_lt.
  - destruct (decide (len < length v)) as [Hl|Hl]; eauto.
    exists v. apply Hge. lia.
Qed.

End Vec_props.

(** ** [Vec]: [push] and [pop] *)

Section Vec_stack.
Context {T : Type}.
Variable moved : T → T.
Implicit Types (v : list T) (x : T) (xs : list T).

Lemma empty_nil : StdVector.empty (@nil T) = true.
Proof. reflexivity. Qed.

Lemma empty_snoc v x : StdVector.empty (v ++ [x]) = false.
Proof.
  unfold StdVector.empty. apply bool_decide_eq_false_2.
  rewrite length_app. simpl. lia.
Qed.

Lemma pop_nil : Vec.pop moved (@nil T) = Ret None [].
Proof. reflexivity. Qed.

Lemma pop_snoc v x : Vec.pop moved (v ++ [x]) = Ret (Some x) v.
Proof.
  unfold Vec.pop. rewrite run_get_state, empty_snoc.
  assert (Hlen : length (v ++ [x]) - 1 = length v).
  { rewrite length_app. simpl. lia. }
  assert (Hback : StdVector.back (v ++ [x]) = Ret (length v) (v ++ [x])).
  { unfold StdVector.back. by rewrite empty_snoc, Hlen. }
  step Hback.
  assert (Hx : (v ++ [x]) !! length v = Some x).
  { rewrite lookup_app_r by lia. by rewrite Nat.sub_diag. }
  step (move_from_lookup moved _ _ _ Hx).
  rewrite run_bind. unfold StdVector.pop_back at 1.
  rewrite (insert_app_r_alt v [x]) by lia. rewrite Nat.sub_diag. simpl.
  rewrite empty_snoc.
  replace (length (v ++ [moved x]) - 1) with (length v)
    by (rewrite length_app; simpl; lia).
  by rewrite take_app_length.
Qed.

Lemma push_all_run xs v : Vec.push_all xs v = Ret () (v ++ xs).
Proof.
  revert v. induction xs as [|x xs IH]; intros v; simpl.
  - by rewrite app_nil_r.
  - rewrite run_bind. unfold Vec.push at 1, StdVector.push_back at 1.
    rewrite IH. by rewrite <- app_assoc.
Qed.

Lemma pop_n_run xs v :
  Vec.pop_n moved (length xs) (v ++ xs) = Ret (Some <$> reverse xs) v.
Proof.
  induction xs as [|x xs IH] using rev_ind; simpl.
  - by rewrite app_nil_r.
  - rewrite length_app, Nat.add_comm. simpl.
    rewrite app_assoc. step (pop_snoc (v ++ xs) x).
    step IH.
    by rewrite reverse_snoc.
Qed.

(** C6: pushing the values [xs] onto an empty vector and then calling
    [pop] as many times returns them, each as a present option, in the
    reverse of the order of insertion, and the vector is empty afterwards;
    [pop] on an empty vector returns an absent option and the vector stays
    empty. *)
Theorem push_pop_reverse xs :
  (Vec.push_all xs;; Vec.pop_n moved (length xs)) []
    = Ret (Some <$> reverse xs) []
  ∧ Vec.pop moved (@nil T) = Ret None [].
Proof.
  split; [|apply pop_nil].
  step (push_all_run xs []).
  apply (pop_n_run xs []).
Qed.

End Vec_stack.

(** ** [Vec]: draining *)

Section Vec_drain.
Context {T : Type}.
Variable moved : T → T.
Implicit Types (v : list T) (x : T) (a b i k : nat).

Local Abbreviation oob := (out_of_range "drain range out of bounds").

Lemma range_check_ok a b n :
  a ≤ b → b ≤ n → bool_decide (b < a) || bool_decide (n < b) = false.
Proof.
  intros. by rewrite !bool_decide_eq_false_2 by lia.
Qed.

Lemma range_check_bad a b n :
  b < a ∨ n < b → bool_decide (b < a) || bool_decide (n < b) = true.
Proof.
  intros [H|H].
  - by rewrite (bool_decide_eq_true_2 _ H).
  - rewrite (bool_decide_eq_true_2 (n < b) H). apply orb_true_r.
Qed.

Lemma DrainIterator_new_ok v a b :
  a ≤ b → b ≤ length v →
  Vec.DrainIterator_new Vec.this a b v
  = Ret (Vec.mkDrainIterator Vec.this a a b) v.
Proof.
  intros Hab Hb. unfold Vec.DrainIterator_new. rewrite run_bind. simpl.
  unfold StdVector.size. by rewrite range_check_ok.
Qed.

Lemma DrainIterator_new_bad v a b :
  b < a ∨ length v < b →
  Vec.DrainIterator_new Vec.this a b v = Throw oob v.
Proof.
  intros H. unfold Vec.DrainIterator_new. rewrite run_bind. simpl.
  unfold StdVector.size. by rewrite range_check_bad.
Qed.

Lemma drain_ok v a b :
  a ≤ b → b ≤ length v →
  Vec.drain (a, b) v
  = Ret (Vec.mksubrange (Vec.mkDrainIterator Vec.this a a b)
                        (Vec.mkDrainSentinel Vec.this b)) v.
Proof.
  intros Hab Hb. unfold Vec.drain. rewrite run_get_state.
  unfold StdVector.size. rewrite range_check_ok by done.
  by step (DrainIterator_new_ok v a b Hab Hb).
Qed.

(** The destructor of a moved-from iterator does nothing. *)
Lemma delete_moved_from (it : Vec.DrainIterator) v :
  Vec.DrainIterator_delete (Vec.DrainIterator_move it).2 v = Ret () v.
Proof. reflexivity. Qed.

Lemma delete_live v a i b :
  a ≤ b → b ≤ length v →
  Vec.DrainIterator_delete (Vec.mkDrainIterator Vec.this a i b) v
  = Ret () (take a v ++ drop b v).
Proof.
  intros. unfold Vec.DrainIterator_delete. simpl. by apply erase_range_run.
Qed.

Lemma drain_loop_S k it sent :
  Vec.drain_loop moved (S k) it sent
  = if Vec.DrainIterator_eq_sentinel it sent then mret ([], it)
    else
      r ← Vec.DrainIterator_deref it;
      x ← Vec.move_from moved r;
      '(xs, it') ← Vec.drain_loop moved k (Vec.DrainIterator_incr it) sent;
      mret (x :: xs, it').
Proof. reflexivity. Qed.

Lemma eq_sentinel_live a i b :
  Vec.DrainIterator_eq_sentinel (Vec.mkDrainIterator Vec.this a i b)
                                (Vec.mkDrainSentinel Vec.this b)
  = bool_decide (i = b).
Proof. reflexivity. Qed.

Lemma deref_live a i b :
  Vec.DrainIterator_deref (T:=T) (Vec.mkDrainIterator Vec.this a i b)
  = Vec.index_op i.
Proof. reflexivity. Qed.

Lemma incr_live a i b :
  Vec.DrainIterator_incr (Vec.mkDrainIterator Vec.this a i b)
  = Vec.mkDrainIterator Vec.this a (S i) b.
Proof. reflexivity. Qed.

(** The loop over a live iterator at cursor [i]: it yields the next
    [min k (b - i)] elements, the cursor ends below or at [b], and the
    vector keeps its length, its elements before [i] and its elements
    from [b] on. *)
Lemma drain_loop_run k : ∀ v a i b,
  a ≤ i → i ≤ b → b ≤ length v →
  ∃ i' v',
    Vec.drain_loop moved k (Vec.mkDrainIterator Vec.this a i b)
                   (Vec.mkDrainSentinel Vec.this b) v
    = Ret (take (k `min` (b - i)) (drop i v),
           Vec.mkDrainIterator Vec.this a i' b) v'
    ∧ length v' = length v
    ∧ take i v' = take i v
    ∧ drop b v' = drop b v.
Proof.
  induction k as [|k IH]; intros v a i b Hai Hib Hb.
  - exists i, v. by rewrite Nat.min_0_l, take_0.
  - rewrite drain_loop_S, eq_sentinel_live.
    destruct (decide (i = b)) as [->|Hne].
    + rewrite bool_decide_eq_true_2 by done.
      exists b, v. by rewrite Nat.sub_diag, Nat.min_0_r, take_0.
    + rewrite bool_decide_eq_false_2 by done.
      assert (Hi : i < length v) by lia.
      destruct (lookup_lt_is_Some_2 v i Hi) as [x Hx].
      rewrite deref_live, incr_live.
      step (index_op_in_bounds v i Hi).
      step (move_from_lookup moved v i x Hx).
      destruct (IH (<[i := moved x]> v) a (S i) b)
        as (i' & v' & E & Hl & Ht & Hd);
        [lia | lia | rewrite length_insert; lia |].
      step E.
      exists i', v'. split; [|split; [|split]].
      * rewrite run_mret. f_equal. f_equal.
        rewrite drop_insert_lt by lia.
        replace (S k `min` (b - i)) with (S (k `min` (b - S i))) by lia.
        by rewrite (drop_S v x i Hx).
      * by rewrite Hl, length_insert.
      * assert (Ht' := f_equal (take i) Ht).
        rewrite !take_take, Nat.min_l in Ht' by lia.
        rewrite Ht'. apply take_insert_ge. lia.
      * rewrite Hd. apply drop_insert_lt. lia.
Qed.

Lemma excise_agree v v' a i b :
  a ≤ i → i ≤ b →
  take i v' = take i v → drop b v' = drop b v →
  take a v' ++ drop b v' = take a v ++ drop b v.
Proof.
  intros Hai Hib Ht Hd. rewrite Hd. f_equal.
  assert (Ht' := f_equal (take a) Ht).
  by rewrite !take_take, Nat.min_l in Ht' by lia.
Qed.

Lemma drain_scope_run v a b k :
  a ≤ b → b ≤ length v →
  Vec.drain_scope moved (a, b) k v
  = Ret (take (k `min` (b - a)) (drop a v)) (take a v ++ drop b v).
Proof.
  intros Hab Hb. unfold Vec.drain_scope.
  step (drain_ok v a b Hab Hb).
  unfold Vec.subrange_begin. simpl.
  destruct (drain_loop_run k v a a b) as (i' & v' & E & Hl & Ht & Hd);
    [lia | lia | lia |].
  unfold Vec.DrainIterator_move. simpl.
  step E.
  erewrite run_bind_ret by (apply delete_live; lia).
  rewrite run_bind. unfold Vec.subrange_delete at 1. simpl.
  rewrite run_mret. f_equal.
  by apply (excise_agree v v' a a b).
Qed.

(** C1: on a vector of length [n] and a range [[a, b)] with
    [a <= b <= n], a scope that takes [drain([a, b))], iterates over
    [k] of its elements ([k = 0]: none; [k >= b - a]: all of them; in
    between: some) and is left, and a scope that drops the result of
    [drain] untouched, both end normally with the vector holding the
    original elements without those at [[a, b)], in their order:
    [n - (b - a)] elements, those before [a] in place and those from [b]
    on moved down by [b - a].  The loop has yielded the first [k]
    elements of the range (all of them if [k] exceeds their number). *)
Theorem drain_excises v a b k :
  a ≤ b → b ≤ length v →
  ∃ v',
    Vec.drain_scope moved (a, b) k v
      = Ret (take (k `min` (b - a)) (drop a v)) v'
    ∧ Vec.drain_drop (a, b) v = Ret () v'
    ∧ v' = take a v ++ drop b v
    ∧ length v' = length v - (b - a)
    ∧ (∀ j, j < a → v' !! j = v !! j)
    ∧ (∀ j, a ≤ j → v' !! j = v !! (j + (b - a))).
Proof.
  intros Hab Hb. exists (take a v ++ drop b v).
  split; [by apply drain_scope_run|]. split.
  { unfold Vec.drain_drop.
    step (drain_ok v a b Hab Hb).
    unfold Vec.subrange_delete. simpl. by apply delete_live. }
  split; [done|]. split; [by apply length_excise|]. split.
  - intros j Hj. apply lookup_excise_before; lia.
  - intros j Hj. by apply lookup_excise_after.
Qed.

(** C2: [drain([a, b))] with [a > b] or [b > length()] throws
    [out_of_range] before any iterator exists, and so does the
    constructor of the iterator on its own; the vector is as it was: same
    elements, same length. *)
Theorem drain_invalid_range v a b :
  b < a ∨ length v < b →
  Vec.drain (a, b) v = Throw oob v
  ∧ Vec.DrainIterator_new Vec.this a b v = Throw oob v.
Proof.
  intros H. split; [|by apply DrainIterator_new_bad].
  unfold Vec.drain. rewrite run_get_state.
  unfold StdVector.size. by rewrite range_check_bad.
Qed.

End Vec_drain.


(** ** [find] *)

Section Find_props.
Context {T W : Type}.
Variable moved : T → T.
Implicit Types (range l : list T) (x : T) (pred : T → M W bool) (w : W).

Lemma find_cons range x pred :
  Find.find moved (x :: range) pred
  = (b ← pred x;
     if b : bool then mret (Some x, moved x :: range)
     else
       '(found, rest') ← Find.find moved range pred;
       mret (found, x :: rest')).
Proof. reflexivity. Qed.

Lemma find_none l pred w w' :
  Find.rejects pred l w w' →
  Find.find moved l pred w = Ret (None, l) w'.
Proof.
  induction 1 as [w|x l w w1 w2 Hx _ IH]; [reflexivity|].
  rewrite find_cons. step Hx.
  by step IH.
Qed.

Lemma find_first l1 x l2 pred w w1 w2 :
  Find.rejects pred l1 w w1 →
  pred x w1 = Ret true w2 →
  Find.find moved (l1 ++ x :: l2) pred w
  = Ret (Some x, l1 ++ moved x :: l2) w2.
Proof.
  intros Hrej Hx. induction Hrej as [w|y l w w0 w1 Hy _ IH]; simpl app.
  - rewrite find_cons. by step Hx.
  - rewrite find_cons. step Hy.
    by step (IH Hx).
Qed.

Lemma find_inv range : ∀ pred w r range' w',
  Find.find moved range pred w = Ret (r, range') w' →
  (r = None ∧ range' = range ∧ Find.rejects pred range w w')
  ∨ (∃ l1 x l2 w1,
        r = Some x ∧ range = l1 ++ x :: l2 ∧ range' = l1 ++ moved x :: l2
        ∧ Find.rejects pred l1 w w1 ∧ pred x w1 = Ret true w').
Proof.
  induction range as [|y range IH]; intros pred w r range' w' E.
  - inversion E; subst. left. repeat split. constructor.
  - rewrite find_cons, run_bind in E.
    destruct (pred y w) as [[] w1| | |] eqn:Hy; try discriminate.
    + inversion E; subst. right. exists [], y, range, w.
      repeat split; [constructor | done].
    + rewrite run_bind in E.
      destruct (Find.find moved range pred w1) as [[r0 rest] w2| | |] eqn:Hf;
        try discriminate.
      inversion E; subst.
      destruct (IH _ _ _ _ _ Hf) as [(-> & -> & Hrej)|
        (l1 & x & l2 & w3 & -> & -> & -> & Hrej & Hx)].
      * left. repeat split. by econstructor.
      * right. exists (y :: l1), x, l2, w3.
        repeat split; [by econstructor | done].
Qed.

(** With a predicate that has no effect, the log of the calls shows that
    the elements before the first accepted one and this one are tested, in
    order, and no other. *)
Lemma rejects_logged (p : T → bool) l log :
  Forall (λ x, p x = false) l →
  Find.rejects (Find.logged p) l log (log ++ l).
Proof.
  intros H. revert log. induction H as [|x l Hx _ IH]; intros log.
  - rewrite app_nil_r. constructor.
  - econstructor.
    + unfold Find.logged. by rewrite Hx.
    + rewrite (cons_middle x log l), app_assoc. apply IH.
Qed.

End Find_props.

Lemma find_logged {T} (moved : T → T) (p : T → bool) l1 x l2 :
  Forall (λ y, p y = false) l1 → p x = true →
  Find.find moved (l1 ++ x :: l2) (Find.logged p) []
  = Ret (Some x, l1 ++ moved x :: l2) (l1 ++ [x]).
Proof.
  intros Hl Hx.
  apply (find_first moved l1 x l2 (Find.logged p) [] l1 (l1 ++ [x])).
  - apply (rejects_logged p l1 [] Hl).
  - unfold Find.logged. by rewrite Hx.
Qed.

(** C10: [find(range, pred)] returns a present option holding the first
    element, in iteration order, that [pred] accepts: if [pred] rejects
    the elements of [l1] one after the other and then accepts [x], the
    result on [l1 ++ x :: l2] is [Some x], whatever [l2] is, and the state
    [pred] acts on is the one its call on [x] left, so [pred] has not run
    on any element of [l2].  If [pred] rejects every element the result is
    absent.  Conversely every result [find] returns arises in one of these
    two ways.  For a predicate [p] without effects the log of its calls
    is [l1 ++ [x]]: the elements up to the first match and no other. *)
Theorem find_spec {T W} (moved : T → T) (pred : T → M W bool) :
  (∀ l1 x l2 w w1 w2,
     Find.rejects pred l1 w w1 → pred x w1 = Ret true w2 →
     Find.find moved (l1 ++ x :: l2) pred w
     = Ret (Some x, l1 ++ moved x :: l2) w2)
  ∧ (∀ l w w',
     Find.rejects pred l w w' → Find.find moved l pred w = Ret (None, l) w')
  ∧ (∀ range w r range' w',
     Find.find moved range pred w = Ret (r, range') w' →
     (r = None ∧ range' = range ∧ Find.rejects pred range w w')
     ∨ (∃ l1 x l2 w1,
          r = Some x ∧ range = l1 ++ x :: l2
          ∧ range' = l1 ++ moved x :: l2
          ∧ Find.rejects pred l1 w w1 ∧ pred x w1 = Ret true w'))
  ∧ (∀ (p : T → bool) l1 x l2,
     Forall (λ y, p y = false) l1 → p x = true →
     Find.find moved (l1 ++ x :: l2) (Find.logged p) []
     = Ret (Some x, l1 ++ moved x :: l2) (l1 ++ [x])).
Proof.
  split; [|split; [|split]].
  - intros. by eapply find_first.
  - intros. by apply find_none.
  - intros. by apply find_inv.
  - intros. by apply find_logged.
Qed.


(** ** The owning [Option] *)

Section OwnOption_props.
Import OwnOption.
Context {T : Type}.
Implicit Types (v : T) (st : option T) (self : Option T).

Lemma has_value_run self : has_value self = Ret (m_has_value self) self.
Proof. reflexivity. Qed.

Lemma value_present v :
  value (Option_of_value v) = Ret v (Option_of_value v).
Proof. reflexivity. Qed.

Lemma value_absent st :
  value (mkOption st false) = Panic "called Option::value() on None".
Proof. reflexivity. Qed.

Lemma on_ret {O W A} (o : O) (m : M O A) (w : W) a o' :
  m o = Ret a o' → on o m w = Ret a w.
Proof. intros E. unfold on. by rewrite E. Qed.

End OwnOption_props.

(** C7: on an absent [Option], whatever its buffer holds, [and_then(f)]
    returns an absent [Option] of the result type of [f] and the state [f]
    acts on is untouched, for every [f]: [f] has not run.  On a present
    [Option] holding [v] it is the call [f(v)]: same result, same
    effects. *)
Theorem and_then_spec {T U W} (f : T → M W (OwnOption.Option U)) (w : W) :
  (∀ st, OwnOption.and_then (OwnOption.mkOption st false) f w
         = Ret (OwnOption.Option_of_none OwnOption._none) w)
  ∧ OwnOption.and_then OwnOption.Option_new f w
    = Ret (OwnOption.Option_of_none OwnOption._none) w
  ∧ OwnOption.m_has_value (OwnOption.Option_of_none (T:=U) OwnOption._none)
    = false
  ∧ (∀ v, OwnOption.and_then (OwnOption.Option_of_value v) f w = f v w).
Proof.
  split; [|split; [|split]].
  - intros st. unfold OwnOption.and_then.
    by step (on_ret _ _ w _ _ (has_value_run (OwnOption.mkOption st false))).
  - reflexivity.
  - reflexivity.
  - intros v. unfold OwnOption.and_then.
    step (on_ret _ _ w _ _ (has_value_run (OwnOption.Option_of_value v))).
    cbn [OwnOption.m_has_value OwnOption.Option_of_value negb].
    step (on_ret _ _ w _ _ (value_present v)).
    reflexivity.
Qed.

(** C8: on a present [Option] built from [v], [value()] and [unwrap()]
    return [v] and leave the object as it is, so a second read returns [v]
    again; on an absent [Option], whatever its buffer holds, [value()] and
    [unwrap()] panic with the message of the source, and do so before the
    buffer is read. *)
Theorem value_spec {T} (v : T) :
  OwnOption.value (OwnOption.Option_of_value v)
    = Ret v (OwnOption.Option_of_value v)
  ∧ OwnOption.unwrap (OwnOption.Option_of_value v)
    = Ret v (OwnOption.Option_of_value v)
  ∧ (x ← OwnOption.value; y ← OwnOption.value; mret (x, y))
      (OwnOption.Option_of_value v)
    = Ret (v, v) (OwnOption.Option_of_value v)
  ∧ (∀ st : option T,
       OwnOption.value (OwnOption.mkOption st false)
         = Panic "called Option::value() on None"
       ∧ OwnOption.unwrap (OwnOption.mkOption st false)
         = Panic "called Option::value() on None").
Proof. repeat split. Qed.

(** * The properties at concrete inputs *)

(** The scenarios of the specification, run on the model.  The moved-from
    state of an [int] is the [int] itself. *)

Example drain_abandoned :
  Vec.drain_scope id (1, 3) 1 [10; 20; 30; 40; 50] = Ret [20] [10; 40; 50].
Proof. reflexivity. Qed.

Example drain_consumed :
  Vec.drain_scope id (1, 3) 5 [10; 20; 30; 40; 50] = Ret [20; 30] [10; 40; 50].
Proof. reflexivity. Qed.

Example drain_moved_from_strings :
  Vec.drain_scope (λ _, "") (0, 2) 1 ["a"; "b"; "c"] = Ret ["a"] ["c"].
Proof. reflexivity. Qed.

Example empty_then_one :
  (o ← Vec.pop id;
   g0 ← Vec.get 0;
   Vec.push 7;;
   g1 ← Vec.get 0;
   x ← from_option Vec.read undefined g1;
   y ← Vec.remove id 0;
   mret (o, g0, g1, x, y)) []
  = Ret (None, None, Some 0, 7, 7) [].
Proof. reflexivity. Qed.

Example find_first_even :
  Find.find id [1; 3; 4; 5; 6] (Find.logged Nat.even) []
  = Ret (Some 4, [1; 3; 4; 5; 6]) [1; 3; 4].
Proof. reflexivity. Qed.

Example and_then_absent_does_not_call :
  OwnOption.and_then (T:=nat) (U:=nat) OwnOption.Option_new
    (λ x calls, Ret (OwnOption.Option_of_value (x + 1)) (S calls)) 0
  = Ret OwnOption.Option_new 0.
Proof. reflexivity. Qed.

Example and_then_present_calls :
  OwnOption.and_then (T:=nat) (U:=nat) (OwnOption.Option_of_value 41)
    (λ x calls, Ret (OwnOption.Option_of_value (x + 1)) (S calls)) 0
  = Ret (OwnOption.Option_of_value 42) 1.
Proof. reflexivity. Qed.

Lemma drain_excises_witness :
  ∃ v',
    Vec.drain_scope id (1, 3) 1 [10; 20; 30; 40; 50]
      = Ret (take (1 `min` (3 - 1)) (drop 1 [10; 20; 30; 40; 50])) v'
    ∧ Vec.drain_drop (1, 3) [10; 20; 30; 40; 50] = Ret () v'
    ∧ v' = take 1 [10; 20; 30; 40; 50] ++ drop 3 [10; 20; 30; 40; 50]
    ∧ length v' = length [10; 20; 30; 40; 50] - (3 - 1)
    ∧ (∀ j, j < 1 → v' !! j = [10; 20; 30; 40; 50] !! j)
    ∧ (∀ j, 1 ≤ j → v' !! j = [10; 20; 30; 40; 50] !! (j + (3 - 1))).
Proof.
  apply (drain_excises id [10; 20; 30; 40; 50] 1 3 1); simpl; lia.
Defined.

Lemma drain_invalid_range_witness :
  Vec.drain (3, 1) [10; 20; 30]
    = Throw (out_of_range "drain range out of bounds") [10; 20; 30]
  ∧ Vec.DrainIterator_new Vec.this 3 1 [10; 20; 30]
    = Throw (out_of_range "drain range out of bounds") [10; 20; 30].
Proof.
  apply (drain_invalid_range [10; 20; 30] 3 1). left. lia.
Defined.

Lemma get_spec_witness :
  (∃ x, [10; 20] !! 1 = Some x
        ∧ Vec.get 1 [10; 20] = Ret (Some 1) [10; 20]
        ∧ Vec.read 1 [10; 20] = Ret x [10; 20])
  ∧ Vec.get 2 [10; 20] = Ret None [10; 20].
Proof.
  split.
  - apply (proj1 (get_spec [10; 20] 1)). simpl. lia.
  - apply (proj2 (get_spec [10; 20] 2)). simpl. lia.
Defined.

Lemma insert_spec_witness :
  (∃ v', Vec.insert 1 15 [10; 20] = Ret () v'
         ∧ length v' = S (length [10; 20])
         ∧ Vec.get 1 v' = Ret (Some 1) v'
         ∧ Vec.read 1 v' = Ret 15 v'
         ∧ (∀ j, j < 1 → v' !! j = [10; 20] !! j)
         ∧ (∀ j, 1 ≤ j → v' !! S j = [10; 20] !! j))
  ∧ Vec.insert 3 15 [10; 20]
    = Throw (out_of_range "insert index out of bounds") [10; 20].
Proof.
  split.
  - apply (proj1 (insert_spec [10; 20] 1 15)). simpl. lia.
  - apply (proj2 (insert_spec [10; 20] 3 15)). simpl. lia.
Defined.

Lemma remove_spec_witness :
  (∃ x v', [10; 20; 30] !! 1 = Some x
           ∧ Vec.remove id 1 [10; 20; 30] = Ret x v'
           ∧ S (length v') = length [10; 20; 30]
           ∧ (∀ j, j < 1 → v' !! j = [10; 20; 30] !! j)
           ∧ (∀ j, 1 < j → v' !! (j - 1) = [10; 20; 30] !! j))
  ∧ Vec.remove id 3 [10; 20; 30]
    = Throw (out_of_range "remove index out of bounds") [10; 20; 30].
Proof.
  split.
  - apply (proj1 (remove_spec id [10; 20; 30] 1)). simpl. lia.
  - apply (proj2 (remove_spec id [10; 20; 30] 3)). simpl. lia.
Defined.

Lemma truncate_spec_witness :
  Vec.truncate 5 [10; 20; 30] = Ret () [10; 20; 30]
  ∧ (∃ v', Vec.truncate 2 [10; 20; 30] = Ret () v'
           ∧ v' = take 2 [10; 20; 30]
           ∧ length v' = 2
           ∧ (∀ j, j < 2 → v' !! j = [10; 20; 30] !! j)).
Proof.
  split.
  - apply (proj1 (truncate_spec [10; 20; 30] 5)). simpl. lia.
  - apply (proj1 (proj2 (truncate_spec [10; 20; 30] 2))). simpl. lia.
Defined.

Lemma find_spec_witness :
  Find.find id ([1; 3] ++ 4 :: [5; 6]) (Find.logged Nat.even) []
  = Ret (Some 4, [1; 3] ++ id 4 :: [5; 6]) [1; 3; 4].
Proof.
  apply (proj1 (find_spec id (Find.logged Nat.even))
           [1; 3] 4 [5; 6] [] [1; 3] [1; 3; 4]).
  - apply Find.rejects_cons with (w1 := [1]); [reflexivity|].
    apply Find.rejects_cons with (w1 := [1; 3]); [reflexivity|].
    apply Find.rejects_nil.
  - reflexivity.
Defined.

(** * Further properties of [Vec] *)

Section Vec_compose.
Context {T : Type}.
Variable moved : T → T.
Implicit Types (v : list T) (x : T) (i a b k : nat).

Lemma insert_run v i x :
  i ≤ length v →
  Vec.insert i x v = Ret () (take i v ++ x :: drop i v).
Proof.
  intros Hi. unfold Vec.insert. rewrite run_get_state.
  unfold StdVector.size. rewrite bool_decide_eq_false_2 by lia.
  unfold StdVector.insert. by rewrite bool_decide_eq_true_2.
Qed.

Lemma remove_run v i x :
  v !! i = Some x →
  Vec.remove moved i v = Ret x (take i v ++ drop (S i) v).
Proof.
  intros Hx. assert (Hi : i < length v) by (by eapply lookup_lt_Some).
  unfold Vec.remove. rewrite run_get_state. unfold StdVector.size.
  rewrite bool_decide_eq_false_2 by lia.
  step (index_op_in_bounds v i Hi).
  step (move_from_lookup moved v i x Hx).
  erewrite run_bind_ret by (apply erase_run; by rewrite length_insert).
  by rewrite take_insert_ge, drop_insert_lt by lia.
Qed.

Lemma truncate_run v n : Vec.truncate n v = Ret () (take n v).
Proof.
  unfold Vec.truncate. rewrite run_get_state. unfold StdVector.size.
  destruct (decide (n < length v)) as [Hn|Hn].
  - rewrite bool_decide_eq_true_2 by done.
    rewrite erase_range_run by lia. by rewrite drop_all, app_nil_r.
  - rewrite bool_decide_eq_false_2 by done. by rewrite take_ge by lia.
Qed.

(** X1: the indexing operator returns a reference to the element at
    [index] when [index < len()], and throws [out_of_range] with the
    message "index out of bounds", the vector untouched, for every other
    index. *)
Theorem index_op_spec v index :
  (index < length v →
     ∃ x, v !! index = Some x
          ∧ Vec.index_op index v = Ret index v
          ∧ Vec.read index v = Ret x v)
  ∧ (length v ≤ index →
     Vec.index_op index v = Throw (out_of_range "index out of bounds") v).
Proof.
  split; intros Hi.
  - destruct (lookup_lt_is_Some_2 v index Hi) as [x Hx]. exists x.
    auto using index_op_in_bounds, read_lookup.
  - unfold Vec.index_op. by step (get_out_of_bounds v index Hi).
Qed.

(** X2: [insert(i, x)] followed by [remove(i)] returns [x] and gives the
    vector back as it was, for every [i <= len()]. *)
Theorem insert_remove_roundtrip v i x :
  i ≤ length v →
  (Vec.insert i x;; Vec.remove moved i) v = Ret x v.
Proof.
  intros Hi. step (insert_run v i x Hi).
  rewrite (remove_run _ i x) by (by apply lookup_insert_at).
  f_equal.
  rewrite take_app_le, take_take, Nat.min_id by (rewrite length_take; lia).
  rewrite drop_app_ge by (rewrite length_take; lia).
  rewrite length_take, Nat.min_l by lia.
  replace (S i - i) with 1 by lia. simpl. rewrite drop_0.
  apply take_drop.
Qed.

(** X3: [remove(i)] followed by [insert(i, x)] of the element it returned
    gives the vector back as it was, for every [i < len()]. *)
Theorem remove_insert_roundtrip v i :
  i < length v →
  (x ← Vec.remove moved i; Vec.insert i x) v = Ret () v.
Proof.
  intros Hi. destruct (lookup_lt_is_Some_2 v i Hi) as [x Hx].
  step (remove_run v i x Hx).
  rewrite insert_run by (rewrite length_app, length_take; lia).
  f_equal.
  rewrite take_app_le, take_take, Nat.min_id by (rewrite length_take; lia).
  rewrite drop_app_ge by (rewrite length_take; lia).
  rewrite length_take, Nat.min_l, Nat.sub_diag, drop_0 by lia.
  by apply take_drop_middle.
Qed.

(** X4: [push(x)] appends: the length grows by one, the elements already
    there keep their index, [get(len)] (with the former length) reaches
    [x], and a [pop] right after returns [x] and gives the vector back. *)
Theorem push_appends v x :
  ∃ v', Vec.push x v = Ret () v'
        ∧ length v' = S (length v)
        ∧ (∀ j, j < length v → v' !! j = v !! j)
        ∧ Vec.get (length v) v' = Ret (Some (length v)) v'
        ∧ Vec.read (length v) v' = Ret x v'
        ∧ Vec.pop moved v' = Ret (Some x) v.
Proof.
  exists (v ++ [x]). split; [reflexivity|].
  assert (Hlen : length (v ++ [x]) = S (length v))
    by (rewrite length_app; simpl; lia).
  split; [done|]. split.
  { intros j Hj. by apply lookup_app_l. }
  split; [apply get_in_bounds; lia|]. split.
  - apply read_lookup. rewrite lookup_app_r by lia.
    by rewrite Nat.sub_diag.
  - apply pop_snoc.
Qed.

(** X5: the operations at the tail are the indexed operations at the last
    position: [push(x)] is [insert(len(), x)], and on a vector that is not
    empty [pop()] is [remove(len() - 1)] wrapped in a present option. *)
Theorem tail_ops_are_indexed v x :
  Vec.push x v = Vec.insert (length v) x v
  ∧ (v ≠ [] →
     Vec.pop moved v
     = (y ← Vec.remove moved (length v - 1); mret (Some y)) v).
Proof.
  split.
  - rewrite insert_run by done.
    by rewrite take_ge, drop_ge by lia.
  - intros Hne. destruct v as [|y v] using rev_ind; [done|]. clear IHv.
    rewrite pop_snoc.
    replace (length (v ++ [y]) - 1) with (length v)
      by (rewrite length_app; simpl; lia).
    assert (Hy : (v ++ [y]) !! length v = Some y).
    { rewrite lookup_app_r by lia. by rewrite Nat.sub_diag. }
    step (remove_run _ _ _ Hy).
    rewrite take_app_length, drop_ge, app_nil_r; [done|].
    rewrite length_app. simpl. lia.
Qed.

(** X6: truncations compose to the truncation to the smaller length,
    and [truncate(0)] is [clear()]. *)
Theorem truncate_truncate v a b :
  (Vec.truncate a;; Vec.truncate b) v = Vec.truncate (a `min` b) v
  ∧ Vec.truncate 0 v = Vec.clear v.
Proof.
  split.
  - step (truncate_run v a). rewrite !truncate_run.
    by rewrite take_take, Nat.min_comm.
  - by rewrite truncate_run.
Qed.

(** X7: draining the whole vector and consuming every element yields the
    elements in order and leaves the vector empty, as [clear()] does. *)
Theorem drain_all v k :
  length v ≤ k →
  Vec.drain_scope moved (0, length v) k v = Ret v []
  ∧ Vec.clear v = Ret () [].
Proof.
  intros Hk. split; [|done].
  rewrite drain_scope_run by lia.
  rewrite Nat.sub_0_r, Nat.min_r, drop_0, take_ge, drop_all by lia.
  done.
Qed.

(** X8: draining the one-element range [[i, i+1)] and taking its element
    is [remove(i)]: same element, same vector afterwards. *)
Theorem drain_one_is_remove v i k :
  i < length v →
  Vec.drain_scope moved (i, S i) (S k) v
  = (x ← Vec.remove moved i; mret [x]) v.
Proof.
  intros Hi. destruct (lookup_lt_is_Some_2 v i Hi) as [x Hx].
  rewrite drain_scope_run by lia.
  step (remove_run v i x Hx).
  replace (S k `min` (S i - i)) with 1 by lia.
  by rewrite (drop_S v x i Hx).
Qed.

(** X9: draining a tail [[a, len())] without looking at it is
    [truncate(a)]. *)
Theorem drain_tail_is_truncate v a :
  a ≤ length v →
  Vec.drain_drop (a, length v) v = Vec.truncate a v.
Proof.
  intros Ha. unfold Vec.drain_drop.
  step (drain_ok v a (length v) Ha (le_n _)).
  unfold Vec.subrange_delete. simpl.
  rewrite delete_live, truncate_run by lia.
  by rewrite drop_all, app_nil_r.
Qed.


End Vec_compose.

(** * The draining iterator in detail *)

Section Drain_detail.
Context {T : Type}.
Variable moved : T → T.
Implicit Types (v : list T) (x : T) (a b i k : nat).

Lemma take_S_insert v i x y :
  v !! i = Some x → take (S i) (<[i := y]> v) = take i v ++ [y].
Proof.
  intros Hx. assert (Hi : i < length v) by (by eapply lookup_lt_Some).
  rewrite (take_S_r _ i y) by (by apply list_lookup_insert_eq).
  by rewrite take_insert_ge by lia.
Qed.

(** The loop, exactly: it yields the next [m = min k (b - i)] elements,
    leaves the cursor at [i + m], and the vector differs from the one it
    started on by the moved-from state of the [m] slots it visited. *)
Lemma drain_loop_exact k : ∀ v a i b,
  i ≤ b → b ≤ length v →
  Vec.drain_loop moved k (Vec.mkDrainIterator Vec.this a i b)
                 (Vec.mkDrainSentinel Vec.this b) v
  = Ret (take (k `min` (b - i)) (drop i v),
         Vec.mkDrainIterator Vec.this a (i + k `min` (b - i)) b)
        (take i v ++ (moved <$> take (k `min` (b - i)) (drop i v))
                  ++ drop (i + k `min` (b - i)) v).
Proof.
  induction k as [|k IH]; intros v a i b Hib Hb.
  - rewrite Nat.min_0_l, Nat.add_0_r, take_0. simpl.
    by rewrite take_drop.
  - rewrite drain_loop_S, eq_sentinel_live.
    destruct (decide (i = b)) as [->|Hne].
    + rewrite bool_decide_eq_true_2 by done.
      rewrite Nat.sub_diag, Nat.min_0_r, Nat.add_0_r, take_0. simpl.
      by rewrite take_drop.
    + rewrite bool_decide_eq_false_2 by done.
      assert (Hi : i < length v) by lia.
      destruct (lookup_lt_is_Some_2 v i Hi) as [x Hx].
      rewrite deref_live, incr_live.
      step (index_op_in_bounds v i Hi).
      step (move_from_lookup moved v i x Hx).
      rewrite (run_bind_ret _ _ _ _ _ (IH (<[i := moved x]> v) a (S i) b
                 ltac:(lia) ltac:(rewrite length_insert; lia))).
      rewrite run_mret.
      replace (S k `min` (b - i)) with (S (k `min` (b - S i))) by lia.
      rewrite !drop_insert_lt by lia.
      rewrite (take_S_insert v i x _ Hx), (drop_S v x i Hx).
      replace (i + S (k `min` (b - S i))) with (S i + k `min` (b - S i))
        by lia.
      simpl. by rewrite <- app_assoc.
Qed.

(** X11: the excision is deferred.  While the drain of [[a, b)] is in
    progress, after [m = min k (b - a)] elements have been taken, the
    vector still has its full length: the elements outside the slots
    visited are in place, and the [m] slots visited hold the moved-from
    state of their elements.  The elements taken are the first [m] of the
    range, the cursor is at [a + m], and the subrange no longer owns the
    vector. *)
Theorem drain_deferred v a b k :
  a ≤ b → b ≤ length v →
  ∃ v',
    VecOps.drain_iterate moved (a, b) k v
    = Ret (take (k `min` (b - a)) (drop a v),
           Vec.mkDrainIterator Vec.this a (a + k `min` (b - a)) b,
           Vec.mksubrange (Vec.mkDrainIterator Vec.nullptr a a b)
                          (Vec.mkDrainSentinel Vec.this b)) v'
    ∧ v' = take a v ++ (moved <$> take (k `min` (b - a)) (drop a v))
                    ++ drop (a + k `min` (b - a)) v
    ∧ length v' = length v.
Proof.
  intros Hab Hb. eexists. split; [|split; [reflexivity|]].
  - unfold VecOps.drain_iterate. step (drain_ok v a b Hab Hb).
    unfold Vec.subrange_begin, Vec.DrainIterator_move. simpl.
    by step (drain_loop_exact k v a a b Hab Hb).
  - rewrite !length_app, length_fmap, !length_take, !length_drop. lia.
Qed.

(** X12: move assignment between two distinct iterators first runs the
    destructor of the target: if the target is the live iterator of a
    drain of [[a, b)], that range is excised from the vector at once.  The
    target then takes over the fields of [other] as they are, and [other]
    is left without a vector.  Assigning an iterator to itself changes
    nothing. *)
Theorem move_assign_commits v (its : list Vec.DrainIterator)
    this other a i b o :
  this ≠ other →
  its !! this = Some (Vec.mkDrainIterator Vec.this a i b) →
  its !! other = Some o →
  a ≤ b → b ≤ length v →
  VecOps.DrainIterator_move_assign this other (v, its)
  = Ret () (take a v ++ drop b v,
            <[other := Vec.mkDrainIterator Vec.nullptr (Vec.start_ o)
                         (Vec.index_ o) (Vec.end_ o)]>
              (<[this := o]> its))
  ∧ VecOps.DrainIterator_move_assign (T:=T) this this (v, its)
    = Ret () (v, its).
Proof.
  intros Hne Hthis Hother Hab Hb. unfold VecOps.DrainIterator_move_assign.
  rewrite Hthis, Hother. split.
  - rewrite bool_decide_eq_true_2 by done.
    rewrite delete_live by done. by destruct o.
  - by rewrite bool_decide_eq_false_2 by (intros ?; done).
Qed.

End Drain_detail.



(** X14: converting the sentinel of a drain to an iterator gives an
    iterator at the end of the range, equal to the sentinel, whose
    destruction removes nothing, as long as the vector still has [end_]
    elements.  Once the vector is shorter than [end_] (the drain has been
    committed, say) the constructor throws inside the [noexcept]
    conversion and the program is terminated; a default-constructed
    sentinel, which has no vector, cannot be converted at all. *)
Theorem sentinel_to_iterator {T} (v : list T) (e : nat) :
  (e ≤ length v →
     ∃ it,
       VecOps.DrainSentinel_to_iterator (Vec.mkDrainSentinel Vec.this e) v
         = Ret it v
       ∧ Vec.DrainIterator_eq_sentinel it (Vec.mkDrainSentinel Vec.this e)
         = true
       ∧ Vec.DrainIterator_delete it v = Ret () v)
  ∧ (length v < e →
     VecOps.DrainSentinel_to_iterator (Vec.mkDrainSentinel Vec.this e) v
       = Panic "std::terminate")
  ∧ VecOps.DrainSentinel_to_iterator (Vec.mkDrainSentinel Vec.nullptr e) v
    = Undefined.
Proof.
  split; [|split; [|reflexivity]].
  - intros He. exists (Vec.mkDrainIterator Vec.this e e e).
    unfold VecOps.DrainSentinel_to_iterator, noexcept. simpl.
    rewrite (DrainIterator_new_ok v e e) by lia. split; [done|]. split.
    + unfold Vec.DrainIterator_eq_sentinel. simpl.
      by rewrite bool_decide_eq_true_2.
    + rewrite delete_live by lia. by rewrite take_drop.
  - intros He. unfold VecOps.DrainSentinel_to_iterator, noexcept. simpl.
    by rewrite (DrainIterator_new_bad v e e) by lia.
Qed.

(** * Further properties of the owning [Option] *)

Section OptionOps_props.
Import OwnOption OptionOps.
Context {T : Type}.
Variable moved : T → T.
Implicit Types (v d : T) (self : Option T) (st : list (Option T)).

Lemma wf_cases self :
  wf self ↔ self = Option_new ∨ ∃ v, self = Option_of_value v.
Proof.
  unfold wf. destruct self as [[x|] []]; simpl; split.
  - intros _. right. by exists x.
  - intros _. split; eauto.
  - intros [_ H]. by specialize (H (mk_is_Some _ _ eq_refl)).
  - intros [[=]|[v [=]]].
  - intros [H _]. by destruct (H eq_refl).
  - intros [[=]|[v [=]]].
  - intros _. by left.
  - intros _. split; [done|]. by intros [? [=]].
Qed.

Lemma wf_new : wf (@Option_new T).
Proof. apply wf_cases. by left. Qed.

Lemma wf_of_value v : wf (Option_of_value v).
Proof. apply wf_cases. right. by exists v. Qed.

Lemma reset_run self : wf self → reset self = Ret () Option_new.
Proof. intros [->|[v ->]]%wf_cases; reflexivity. Qed.

Lemma assign_value_run self v :
  wf self → assign_value v self = Ret () (Option_of_value v).
Proof. intros [->|[x ->]]%wf_cases; reflexivity. Qed.

Lemma at_run {O A} (m : M O A) (this : nat) (s : list O) o a o' :
  s !! this = Some o → m o = Ret a o' →
  at_ this m s = Ret a (<[this := o']> s).
Proof. intros Hs Hm. unfold at_. by rewrite Hs, Hm. Qed.

(** X15: [reset()] leaves the option absent with an empty buffer whatever
    it held; [operator=(none_t)] does the same; a second [reset()] changes
    nothing more; after it [has_value()] is false and [value()] panics. *)
Theorem reset_spec self :
  wf self →
  reset self = Ret () Option_new
  ∧ assign_none _none self = Ret () Option_new
  ∧ (reset;; reset) self = Ret () Option_new
  ∧ (reset;; has_value) self = Ret false Option_new
  ∧ (reset;; value) self = Panic "called Option::value() on None".
Proof.
  intros Hwf. pose proof (reset_run self Hwf) as E.
  split; [done|]. split; [done|].
  split; [by step E|]. split; by step E.
Qed.

(** X16: assignment of a value leaves the option present with that value,
    whatever it held before: a [value()] right after returns it, and of two
    assignments in a row the second one wins. *)
Theorem assign_value_spec self v d :
  wf self →
  assign_value v self = Ret () (Option_of_value v)
  ∧ (assign_value v;; value) self = Ret v (Option_of_value v)
  ∧ (assign_value d;; assign_value v) self = Ret () (Option_of_value v).
Proof.
  intros Hwf. split; [by apply assign_value_run|]. split.
  - by step (assign_value_run self v Hwf).
  - step (assign_value_run self d Hwf).
    apply assign_value_run, wf_of_value.
Qed.

(** X17: the copy constructor builds an option equal to its source and
    leaves the source as it is; the move constructor builds an option
    equal to its source and leaves the source absent, with an empty
    buffer.  Neither reads the buffer of an absent source. *)
Theorem copy_move_construct (other : Option T) :
  wf other →
  Option_copy other = Ret other other
  ∧ Option_move moved other = Ret other Option_new.
Proof. intros [->|[v ->]]%wf_cases; split; reflexivity. Qed.

(** X18: assignment between two distinct options of a store: after copy
    assignment the target equals the source and the source is unchanged;
    after move assignment the target equals the former source and the
    source is absent.  No other object changes, and every object of the
    store still satisfies the invariant of the class.  Assigning an option
    to itself, by copy or by move, changes nothing. *)
Theorem assign_between st (this other : nat) (a b : Option T) :
  this ≠ other →
  st !! this = Some a → st !! other = Some b →
  Forall wf st →
  ∃ st1 st2,
    assign_copy this other st = Ret () st1
    ∧ st1 = <[this := b]> st
    ∧ assign_move moved this other st = Ret () st2
    ∧ st2 = <[other := Option_new]> (<[this := b]> st)
    ∧ Forall wf st1 ∧ Forall wf st2
    ∧ assign_copy this this st = Ret () st
    ∧ assign_move moved this this st = Ret () st.
Proof.
  intros Hne Hthis Hother Hall.
  assert (Ha : wf a) by (by eapply Forall_lookup_1).
  assert (Hb : wf b) by (by eapply Forall_lookup_1).
  assert (Ho1 : <[this := Option_new]> st !! other = Some b)
    by (by rewrite list_lookup_insert_ne).
  assert (Hlt : this < length st) by (by eapply lookup_lt_Some).
  assert (Hlt' : other < length st) by (by eapply lookup_lt_Some).
  assert (Ht1 : <[this := Option_new]> st !! this = Some (@Option_new T))
    by (by apply list_lookup_insert_eq).
  assert (Hself : ∀ x : nat, bool_decide (x ≠ x) = false)
    by (intros x; by apply bool_decide_eq_false_2; intros H).
  eexists _, _. split; [|split; [reflexivity|]].
  2: split; [|split; [reflexivity|]].
  - unfold assign_copy. rewrite bool_decide_eq_true_2 by done.
    step (at_run reset this st a () _ Hthis (reset_run a Ha)).
    step (at_run get_state other _ b b b Ho1 eq_refl).
    rewrite list_insert_id by done.
    apply wf_cases in Hb as [->|[v ->]]; cbn [m_has_value Option_new
      Option_of_value].
    + reflexivity.
    + step (at_run read_ptr other _ _ v _ Ho1 eq_refl).
      rewrite list_insert_id by done.
      step (at_run (construct_at v) this _ _ () _ Ht1 eq_refl).
      rewrite list_insert_insert_eq.
      erewrite at_run;
        [|by apply list_lookup_insert_eq|reflexivity].
      by rewrite list_insert_insert_eq.
  - unfold assign_move. rewrite bool_decide_eq_true_2 by done.
    step (at_run reset this st a () _ Hthis (reset_run a Ha)).
    step (at_run get_state other _ b b b Ho1 eq_refl).
    rewrite list_insert_id by done.
    apply wf_cases in Hb as [->|[v ->]]; cbn [m_has_value Option_new
      Option_of_value].
    + rewrite run_mret. f_equal. symmetry.
      apply list_insert_id. by rewrite list_lookup_insert_ne.
    + step (at_run (move_out moved) other _ _ v _ Ho1 eq_refl).
      erewrite run_bind_ret; cycle 1.
      { eapply (at_run (construct_at v) this); [|reflexivity].
        rewrite list_lookup_insert_ne by done. exact Ht1. }
      erewrite run_bind_ret; cycle 1.
      { eapply (at_run (set_has_value true) this); [|reflexivity].
        apply list_lookup_insert_eq. rewrite ?length_insert. lia. }
      erewrite at_run; cycle 1.
      { rewrite !list_lookup_insert_ne by done.
        apply list_lookup_insert_eq. rewrite ?length_insert. lia. }
      { reflexivity. }
      f_equal. cbn.
      rewrite !list_insert_insert_eq.
      rewrite (list_insert_insert_ne _ other this) by done.
      rewrite list_insert_insert_eq.
      rewrite (list_insert_insert_ne _ this other) by done.
      by rewrite !list_insert_insert_eq.
  - split; [|split].
    + apply Forall_insert; done.
    + apply Forall_insert; [by apply Forall_insert|apply wf_new].
    + unfold assign_copy, assign_move. by rewrite Hself.
Qed.

End OptionOps_props.

Section OptionOps_access.
Import OwnOption OptionOps.
Context {T : Type}.
Variable moved : T → T.

(** X19: [unwrap_or(d)] never panics: it returns the held value of a
    present option and [d] for an absent one.  Called on an lvalue it
    leaves the option as it is; called on an rvalue it moves the held
    value out, and the option stays present around the moved-from
    object. *)
Theorem unwrap_or_spec (v d : T) :
  unwrap_or d (Option_of_value v) = Ret v (Option_of_value v)
  ∧ unwrap_or d Option_new = Ret d Option_new
  ∧ unwrap_or_rvalue moved d (Option_of_value v)
    = Ret v (Option_of_value (moved v))
  ∧ unwrap_or_rvalue moved d Option_new = Ret d Option_new.
Proof. repeat split. Qed.

(** X20: [expect(msg)] is [value()] with the caller's message: the held
    value when present, a panic with [msg] when absent.  The unchecked
    dereference operators agree with [value()] on a present option and
    read an empty buffer, which is undefined, on an absent one. *)
Theorem expect_deref_spec (v : T) (msg : string) :
  expect msg (Option_of_value v) = Ret v (Option_of_value v)
  ∧ expect msg (@Option_new T) = Panic msg
  ∧ deref (Option_of_value v) = value (Option_of_value v)
  ∧ value (@Option_new T) = Panic "called Option::value() on None"
  ∧ deref (@Option_new T) = Undefined.
Proof. repeat split. Qed.

End OptionOps_access.

(** X21: [and_then] obeys the laws of monadic chaining.  Chaining the
    function that wraps its argument in a present option gives the option
    back, and two chained calls are one call with the chained functions,
    effects of the functions included. *)
Theorem and_then_laws {T U V W} (o : OwnOption.Option T)
    (f : T → M W (OwnOption.Option U))
    (g : U → M W (OwnOption.Option V)) (w : W) :
  (OptionOps.wf o →
     OwnOption.and_then o (λ x, mret (OptionOps.Some_ x)) w = Ret o w)
  ∧ (r ← OwnOption.and_then o f; OwnOption.and_then r g) w
    = OwnOption.and_then o (λ x, r ← f x; OwnOption.and_then r g) w.
Proof.
  split.
  - intros [->|[v ->]]%wf_cases; reflexivity.
  - destruct o as [[x|] []]; reflexivity.
Qed.

(** X22: the reference options.  A present one hands out the reference it
    was built from, through [value()], [unwrap()], [expect()] and
    [unwrap_or()], and [and_then(f)] calls [f] on that reference, so what
    [f] writes through it lands in the referent.  An absent one panics in
    [value()] and [expect()] (with the caller's message), yields the
    default reference in [unwrap_or()], and does not call [f]. *)
Theorem ref_option_spec {S U} (l d : nat) (msg : string)
    (f : nat → M S (OwnOption.Option U)) (s : S) :
  RefOption.value (RefOption.Option_ref_of l) s = Ret l s
  ∧ RefOption.unwrap (RefOption.Option_ref_of l) s = Ret l s
  ∧ RefOption.expect msg (RefOption.Option_ref_of l) s = Ret l s
  ∧ RefOption.unwrap_or d (RefOption.Option_ref_of l) = l
  ∧ RefOption.and_then (RefOption.Option_ref_of l) f s = f l s
  ∧ RefOption.value RefOption.Option_ref_new s
    = Panic "called Option::value() on None"
  ∧ RefOption.expect msg RefOption.Option_ref_new s = Panic msg
  ∧ RefOption.unwrap_or d RefOption.Option_ref_new = d
  ∧ RefOption.and_then RefOption.Option_ref_new f s
    = Ret (OwnOption.Option_of_none OwnOption._none) s.
Proof. repeat split. Qed.

(** The lines of the example program on [Option<int&>]: the target is
    modified through [value()], then doubled by the function given to
    [and_then]. *)
Example ref_option_aliases :
  (r ← RefOption.value (RefOption.Option_ref_of 0);
   RefOption.store r 70;;
   o ← RefOption.and_then (RefOption.Option_ref_of 0)
          (λ r, x ← RefOption.load r;
                RefOption.store r (x * 2);;
                y ← RefOption.load r;
                mret (OptionOps.Some_ y));
   t ← RefOption.load 0;
   mret (o, t)) [50]
  = Ret (OwnOption.Option_of_value 140, 140) [140].
Proof. reflexivity. Qed.

(** * Further properties of [find] *)

Section Find_more.
Context {T W : Type}.
Variable moved : T → T.
Implicit Types (range l : list T) (x : T) (pred : T → M W bool) (w : W).

(** X23: an exception thrown by the predicate leaves [find]: if [pred]
    rejects the elements of [l1] and throws on [x], then [find] on
    [l1 ++ x :: l2] throws the same exception in the state that call of
    [pred] left, whatever [l2] is; the same holds for a panic. *)
Theorem find_propagates l1 x l2 pred w w1 :
  Find.rejects pred l1 w w1 →
  (∀ e w2, pred x w1 = Throw e w2 →
     Find.find moved (l1 ++ x :: l2) pred w = Throw e w2)
  ∧ (∀ msg, pred x w1 = Panic msg →
     Find.find moved (l1 ++ x :: l2) pred w = Panic msg).
Proof.
  intros Hrej.
  induction Hrej as [w|y l w w0 w1 Hy _ IH]; simpl app.
  - split; intros ? **; rewrite find_cons, run_bind;
      match goal with H : pred x w = _ |- _ => by rewrite H end.
  - destruct IH as [IH1 IH2].
    split; intros ? **; rewrite find_cons; step Hy; rewrite run_bind.
    + by erewrite IH1.
    + by erewrite IH2.
Qed.

(** X24: with a predicate that has no effect, [find] is the search for
    the first element satisfying it: the result is the element that
    [list_find] designates, the slot it came from holds its moved-from
    state, and no other slot changes; there is no result exactly when no
    element satisfies the predicate, and the range is then untouched. *)
Theorem find_pure (p : T → bool) range w :
  Find.find moved range (λ x, mret (p x)) w
  = Ret (match list_find (λ x, p x = true) range with
         | Some (i, x) => (Some x, <[i := moved x]> range)
         | None => (None, range)
         end) w.
Proof.
  induction range as [|y range IH]; [reflexivity|].
  rewrite find_cons, run_bind, run_mret. cbn [list_find].
  destruct (p y) eqn:Hy.
  - by rewrite decide_True.
  - rewrite decide_False by (by intros [=]).
    rewrite run_bind, IH.
    by destruct (list_find _ range) as [[i x]|].
Qed.


End Find_more.

(** * The database example *)

Section Db_props.
Import DbExample.
Variable moved : record → record.
Implicit Types (l pre suf : list record) (o : list item)
  (k : string) (val new : Z) (s : St).

Lemma on_db_ret {A} (m : M (list record) A) s a v :
  m (db s) = Ret a v → on_db m s = Ret a (mkSt v (out s)).
Proof. intros E. unfold on_db. by rewrite E. Qed.

Lemma lookup_middle pre (x : record) suf :
  (pre ++ x :: suf) !! length pre = Some x.
Proof. rewrite lookup_app_r by lia. by rewrite Nat.sub_diag. Qed.

Lemma delete_loop_unfold fuel i k :
  delete_loop moved fuel i k
  = (n ← on_db Vec.len;
     if bool_decide (i < n) then
       match fuel with
       | 0 => undefined
       | S fuel' =>
           rec ← on_db (Vec.get i);
           matches ← match rec with
                      | Some r =>
                          '(key, _) ← on_db (Vec.read r);
                          mret (bool_decide (key = k))
                      | None => mret false
                      end;
           if matches : bool then
             '(key, val) ← on_db (Vec.remove moved i);
             cout [Str "Deleted: "; Str key; Str "="; Int val; endl];;
             mret true
           else delete_loop moved fuel' (S i) k
       end
     else mret false).
Proof. by destruct fuel. Qed.

(** One turn of the [Delete] loop on the record at [i = length pre]. *)
Lemma delete_loop_turn fuel pre (x : record) suf o k :
  delete_loop moved (S fuel) (length pre) k (mkSt (pre ++ x :: suf) o)
  = if bool_decide (x.1 = k)
    then Ret true
           (mkSt (pre ++ suf)
              (o ++ [Str "Deleted: "; Str x.1; Str "="; Int x.2; endl]))
    else delete_loop moved fuel (S (length pre)) k
           (mkSt (pre ++ x :: suf) o).
Proof.
  rewrite delete_loop_unfold.
  assert (Hlt : length pre < length (pre ++ x :: suf))
    by (rewrite length_app; simpl; lia).
  step (on_db_ret Vec.len (mkSt (pre ++ x :: suf) o) _ _ eq_refl).
  cbn [db out]. unfold StdVector.size.
  rewrite bool_decide_eq_true_2 by done.
  step (on_db_ret (Vec.get (length pre)) (mkSt (pre ++ x :: suf) o) _ _
          (get_in_bounds _ _ Hlt)).
  cbn [db out].
  rewrite run_bind.
  rewrite (run_bind_ret _ _ _ _ _
             (on_db_ret (Vec.read (length pre)) (mkSt (pre ++ x :: suf) o)
                _ _ (read_lookup _ _ _ (lookup_middle pre x suf)))).
  destruct x as [key val]. cbn [db out fst snd]. rewrite run_mret.
  destruct (bool_decide (key = k)); [|done].
  step (on_db_ret (Vec.remove moved (length pre))
          (mkSt (pre ++ (key, val) :: suf) o) _ _
          (remove_run moved _ _ _ (lookup_middle pre (key, val) suf))).
  cbn [db out]. rewrite take_app_length.
  rewrite drop_app_ge by lia.
  replace (S (length pre) - length pre) with 1 by lia.
  reflexivity.
Qed.

Lemma delete_loop_end fuel l o k :
  delete_loop moved fuel (length l) k (mkSt l o) = Ret false (mkSt l o).
Proof.
  rewrite delete_loop_unfold.
  step (on_db_ret Vec.len (mkSt l o) _ _ eq_refl).
  cbn [db out]. unfold StdVector.size.
  by rewrite bool_decide_eq_false_2 by lia.
Qed.

Lemma delete_loop_none suf : ∀ fuel pre o k,
  Forall (λ r, r.1 ≠ k) suf → length suf ≤ fuel →
  delete_loop moved fuel (length pre) k (mkSt (pre ++ suf) o)
  = Ret false (mkSt (pre ++ suf) o).
Proof.
  induction suf as [|x suf IH]; intros fuel pre o k Hall Hfuel.
  - rewrite app_nil_r. apply delete_loop_end.
  - destruct fuel as [|fuel]; [simpl in Hfuel; lia|].
    apply Forall_cons in Hall as [Hx Hall].
    rewrite delete_loop_turn, bool_decide_eq_false_2 by done.
    replace (S (length pre)) with (length (pre ++ [x]))
      by (rewrite length_app; simpl; lia).
    rewrite (cons_middle x pre suf), app_assoc.
    apply IH; [done|simpl in Hfuel; lia].
Qed.

Lemma delete_loop_first (l1 : list record) : ∀ fuel pre k val l2 o,
  Forall (λ r, r.1 ≠ k) l1 → length l1 < fuel →
  delete_loop moved fuel (length pre) k
    (mkSt (pre ++ l1 ++ (k, val) :: l2) o)
  = Ret true (mkSt (pre ++ l1 ++ l2)
                (o ++ [Str "Deleted: "; Str k; Str "="; Int val; endl])).
Proof.
  induction l1 as [|x l1 IH]; intros fuel pre k val l2 o Hall Hfuel;
    (destruct fuel as [|fuel]; [simpl in Hfuel; lia|]).
  - simpl app. rewrite delete_loop_turn. simpl.
    by rewrite bool_decide_eq_true_2.
  - apply Forall_cons in Hall as [Hx Hall]. simpl app.
    rewrite delete_loop_turn, bool_decide_eq_false_2 by done.
    replace (S (length pre)) with (length (pre ++ [x]))
      by (rewrite length_app; simpl; lia).
    rewrite (cons_middle x pre (l1 ++ (k, val) :: l2)), app_assoc.
    rewrite (IH fuel (pre ++ [x])) by (simpl in Hfuel; done || lia).
    by rewrite <- app_assoc.
Qed.

Lemma delete_handler_found k o (l1 : list record) val l2 :
  Forall (λ r, r.1 ≠ k) l1 →
  db_handler moved (Delete k) (mkSt (l1 ++ (k, val) :: l2) o)
  = Ret () (mkSt (l1 ++ l2)
              (o ++ [Str "Deleted: "; Str k; Str "="; Int val; endl])).
Proof.
  intros Hall. cbn [db_handler]. unfold handle_delete.
  step (on_db_ret Vec.len (mkSt (l1 ++ (k, val) :: l2) o) _ _ eq_refl).
  cbn [db out]. unfold StdVector.size.
  assert (E : delete_loop moved (length (l1 ++ (k, val) :: l2)) 0 k
                (mkSt (l1 ++ (k, val) :: l2) o)
              = Ret true
                  (mkSt (l1 ++ l2)
                     (o ++ [Str "Deleted: "; Str k; Str "="; Int val;
                            endl]))).
  { apply (delete_loop_first l1 _ [] k val l2 o Hall).
    rewrite length_app. simpl. lia. }
  by step E.
Qed.

Lemma delete_handler_missing k o l :
  Forall (λ r, r.1 ≠ k) l →
  db_handler moved (Delete k) (mkSt l o)
  = Ret () (mkSt l (o ++ [Str ("Delete failed: key not found" +:+ nl)])).
Proof.
  intros Hall. cbn [db_handler]. unfold handle_delete.
  step (on_db_ret Vec.len (mkSt l o) _ _ eq_refl).
  cbn [db out]. unfold StdVector.size.
  assert (E : delete_loop moved (length l) 0 k (mkSt l o)
              = Ret false (mkSt l o)).
  { apply (delete_loop_none l _ [] o k Hall). done. }
  by step E.
Qed.

(** X26: the [Delete] handler removes the first record whose key is the
    one asked for, and no other: the records before and after it keep
    their order, and the record removed is reported on the output.  If no
    record has that key the database is unchanged and the failure is
    reported. *)
Theorem delete_handler_spec k o :
  (∀ (l1 : list record) val l2,
     Forall (λ r, r.1 ≠ k) l1 →
     db_handler moved (Delete k) (mkSt (l1 ++ (k, val) :: l2) o)
     = Ret () (mkSt (l1 ++ l2)
                 (o ++ [Str "Deleted: "; Str k; Str "="; Int val; endl])))
  ∧ (∀ l,
     Forall (λ r, r.1 ≠ k) l →
     db_handler moved (Delete k) (mkSt l o)
     = Ret () (mkSt l (o ++ [Str ("Delete failed: key not found" +:+ nl)]))).
Proof.
  split.
  - intros l1 val l2. apply delete_handler_found.
  - intros l. apply delete_handler_missing.
Qed.

Lemma update_loop_none suf : ∀ pre o k new,
  Forall (λ r, r.1 ≠ k) suf →
  update_loop (seq (length pre) (length suf)) k new (mkSt (pre ++ suf) o)
  = Ret false (mkSt (pre ++ suf) o).
Proof.
  induction suf as [|x suf IH]; intros pre o k new Hall; [reflexivity|].
  apply Forall_cons in Hall as [Hx Hall]. cbn [length seq update_loop].
  step (on_db_ret (Vec.read (length pre)) (mkSt (pre ++ x :: suf) o) _ _
          (read_lookup _ _ _ (lookup_middle pre x suf))).
  destruct x as [key val]. cbn [db out fst snd] in *.
  rewrite bool_decide_eq_false_2 by done.
  replace (S (length pre)) with (length (pre ++ [(key, val)]))
    by (rewrite length_app; simpl; lia).
  rewrite (cons_middle ((key, val) : record) pre suf), app_assoc.
  by apply IH.
Qed.

Lemma update_loop_first (l1 : list record) : ∀ pre k val new l2 o,
  Forall (λ r, r.1 ≠ k) l1 →
  update_loop (seq (length pre) (length (l1 ++ (k, val) :: l2))) k new
    (mkSt (pre ++ l1 ++ (k, val) :: l2) o)
  = Ret true (mkSt (pre ++ l1 ++ (k, new) :: l2)
                (o ++ [Str "Updated: "; Str k; Str "="; Int new; endl])).
Proof.
  induction l1 as [|x l1 IH]; intros pre k val new l2 o Hall;
    cbn [app length seq update_loop].
  - step (on_db_ret (Vec.read (length pre))
            (mkSt (pre ++ (k, val) :: l2) o) _ _
            (read_lookup _ _ _ (lookup_middle pre (k, val) l2))).
    cbn [db out]. rewrite bool_decide_eq_true_2 by done.
    assert (E : write (length pre) (k, new) (pre ++ (k, val) :: l2)
                = Ret () (pre ++ (k, new) :: l2)).
    { unfold write. rewrite lookup_middle.
      rewrite insert_app_r_alt, Nat.sub_diag by lia. done. }
    by step (on_db_ret _ (mkSt (pre ++ (k, val) :: l2) o) _ _ E).
  - apply Forall_cons in Hall as [Hx Hall].
    step (on_db_ret (Vec.read (length pre))
            (mkSt (pre ++ x :: l1 ++ (k, val) :: l2) o) _ _
            (read_lookup _ _ _ (lookup_middle pre x _))).
    destruct x as [key v0]. cbn [db out fst snd] in *.
    rewrite bool_decide_eq_false_2 by done.
    replace (S (length pre)) with (length (pre ++ [(key, v0)]))
      by (rewrite length_app; simpl; lia).
    rewrite (cons_middle ((key, v0) : record) pre (l1 ++ (k, val) :: l2)),
      app_assoc.
    rewrite (IH (pre ++ [(key, v0)])) by done.
    by rewrite <- app_assoc.
Qed.

(** X27: the [Update] handler gives the new value to the first record
    whose key is the one asked for and to no other: the database keeps its
    length and every other record, and the update is reported.  If no
    record has that key the database is unchanged and the failure is
    reported. *)
Theorem update_handler_spec k new o :
  (∀ (l1 : list record) val l2,
     Forall (λ r, r.1 ≠ k) l1 →
     db_handler moved (Update k new) (mkSt (l1 ++ (k, val) :: l2) o)
     = Ret () (mkSt (l1 ++ (k, new) :: l2)
                 (o ++ [Str "Updated: "; Str k; Str "="; Int new; endl])))
  ∧ (∀ l,
     Forall (λ r, r.1 ≠ k) l →
     db_handler moved (Update k new) (mkSt l o)
     = Ret () (mkSt l (o ++ [Str ("Update failed: key not found" +:+ nl)]))).
Proof.
  split.
  - intros l1 val l2 Hall. cbn [db_handler]. unfold handle_update.
    step (on_db_ret iter_mut (mkSt (l1 ++ (k, val) :: l2) o) _ _ eq_refl).
    cbn [db out].
    by step (update_loop_first l1 [] k val new l2 o Hall).
  - intros l Hall. cbn [db_handler]. unfold handle_update.
    step (on_db_ret iter_mut (mkSt l o) _ _ eq_refl). cbn [db out].
    by step (update_loop_none l [] o k new Hall).
Qed.

Lemma select_loop_none suf : ∀ pre o k cb,
  Forall (λ r, r.1 ≠ k) suf →
  select_loop (seq (length pre) (length suf)) k cb (mkSt (pre ++ suf) o)
  = Ret false (mkSt (pre ++ suf) o).
Proof.
  induction suf as [|x suf IH]; intros pre o k cb Hall; [reflexivity|].
  apply Forall_cons in Hall as [Hx Hall]. cbn [length seq select_loop].
  step (on_db_ret (Vec.read (length pre)) (mkSt (pre ++ x :: suf) o) _ _
          (read_lookup _ _ _ (lookup_middle pre x suf))).
  destruct x as [key val]. cbn [db out fst snd] in *.
  rewrite bool_decide_eq_false_2 by done.
  replace (S (length pre)) with (length (pre ++ [(key, val)]))
    by (rewrite length_app; simpl; lia).
  rewrite (cons_middle ((key, val) : record) pre suf), app_assoc.
  by apply IH.
Qed.

Lemma select_loop_first (l1 : list record) : ∀ pre k val cb l2 o,
  Forall (λ r, r.1 ≠ k) l1 →
  select_loop (seq (length pre) (length (l1 ++ (k, val) :: l2))) k cb
    (mkSt (pre ++ l1 ++ (k, val) :: l2) o)
  = (cb val;; mret true) (mkSt (pre ++ l1 ++ (k, val) :: l2) o).
Proof.
  induction l1 as [|x l1 IH]; intros pre k val cb l2 o Hall;
    cbn [app length seq select_loop].
  - step (on_db_ret (Vec.read (length pre))
            (mkSt (pre ++ (k, val) :: l2) o) _ _
            (read_lookup _ _ _ (lookup_middle pre (k, val) l2))).
    cbn [db out]. by rewrite bool_decide_eq_true_2.
  - apply Forall_cons in Hall as [Hx Hall].
    step (on_db_ret (Vec.read (length pre))
            (mkSt (pre ++ x :: l1 ++ (k, val) :: l2) o) _ _
            (read_lookup _ _ _ (lookup_middle pre x _))).
    destruct x as [key v0]. cbn [db out fst snd] in *.
    rewrite bool_decide_eq_false_2 by done.
    replace (S (length pre)) with (length (pre ++ [(key, v0)]))
      by (rewrite length_app; simpl; lia).
    rewrite (cons_middle ((key, v0) : record) pre (l1 ++ (k, val) :: l2)),
      app_assoc.
    rewrite (IH (pre ++ [(key, v0)])) by done.
    by rewrite <- !app_assoc.
Qed.

(** X28: the [Select] handler calls the callback once, on the value of
    the first record whose key is the one asked for, and does nothing
    else: its outcome and its effects are those of that call.  If no
    record has that key the callback is not called, the database is
    unchanged and the failure is reported. *)
Theorem select_handler_spec k (cb : Z → M St ()) o :
  (∀ (l1 : list record) val l2,
     Forall (λ r, r.1 ≠ k) l1 →
     db_handler moved (Select k cb) (mkSt (l1 ++ (k, val) :: l2) o)
     = cb val (mkSt (l1 ++ (k, val) :: l2) o))
  ∧ (∀ l,
     Forall (λ r, r.1 ≠ k) l →
     db_handler moved (Select k cb) (mkSt l o)
     = Ret () (mkSt l (o ++ [Str ("Select failed: key not found" +:+ nl)]))).
Proof.
  split.
  - intros l1 val l2 Hall. cbn [db_handler]. unfold handle_select.
    step (on_db_ret iter (mkSt (l1 ++ (k, val) :: l2) o) _ _ eq_refl).
    cbn [db out].
    assert (E : select_loop (seq 0 (length (l1 ++ (k, val) :: l2))) k cb
                  (mkSt (l1 ++ (k, val) :: l2) o)
                = (cb val;; mret true) (mkSt (l1 ++ (k, val) :: l2) o))
      by apply (select_loop_first l1 [] k val cb l2 o Hall).
    rewrite run_bind, E, run_bind.
    by destruct (cb val _) as [[] s'| | |].
  - intros l Hall. cbn [db_handler]. unfold handle_select.
    step (on_db_ret iter (mkSt l o) _ _ eq_refl). cbn [db out].
    by step (select_loop_none l [] o k cb Hall).
Qed.

(** X29: on a database that has no record with key [k], an [Insert] of
    [k] followed by a [Delete] of [k] gives the database back; both
    messages are reported, in this order.  [Insert] does not look for the
    key: the record is appended whatever the database holds. *)
Theorem insert_delete_roundtrip k val l o :
  Forall (λ r, r.1 ≠ k) l →
  (db_handler moved (Insert k val);; db_handler moved (Delete k)) (mkSt l o)
  = Ret () (mkSt l
              (o ++ [Str "Inserted: "; Str k; Str " -> "; Int val; endl]
                 ++ [Str "Deleted: "; Str k; Str "="; Int val; endl]))
  ∧ (∀ l', db_handler moved (Insert k val) (mkSt l' o)
           = Ret () (mkSt (l' ++ [(k, val)])
                       (o ++ [Str "Inserted: "; Str k; Str " -> "; Int val;
                              endl]))).
Proof.
  intros Hall.
  assert (Hins : ∀ l', db_handler moved (Insert k val) (mkSt l' o)
           = Ret () (mkSt (l' ++ [(k, val)])
                       (o ++ [Str "Inserted: "; Str k; Str " -> "; Int val;
                              endl]))) by done.
  split; [|done]. step (Hins l).
  rewrite (delete_handler_found k _ l val [] Hall).
  by rewrite app_nil_r, <- app_assoc.
Qed.

End Db_props.

Section Drain_vs_remove.
Context {T : Type}.
Variable moved : T → T.

Lemma remove_n_run n : ∀ (v : list T) a,
  a + n ≤ length v →
  VecOps.remove_n moved n a v
  = Ret (take n (drop a v)) (take a v ++ drop (a + n) v).
Proof.
  induction n as [|n IH]; intros v a Hn.
  - simpl. by rewrite Nat.add_0_r, take_drop.
  - assert (Ha : a < length v) by lia.
    destruct (lookup_lt_is_Some_2 v a Ha) as [x Hx].
    cbn [VecOps.remove_n]. step (remove_run moved v a x Hx).
    rewrite (run_bind_ret _ _ _ _ _
               (IH (take a v ++ drop (S a) v) a
                  ltac:(rewrite length_app, length_take, length_drop; lia))).
    rewrite run_mret. f_equal.
    + rewrite drop_app_ge by (rewrite length_take; lia).
      rewrite length_take, Nat.min_l, Nat.sub_diag, drop_0 by lia.
      by rewrite (drop_S v x a Hx).
    + rewrite take_app_le, take_take, Nat.min_id by (rewrite length_take; lia).
      rewrite drop_app_ge by (rewrite length_take; lia).
      rewrite length_take, Nat.min_l by lia.
      rewrite drop_drop. do 2 f_equal. lia.
Qed.

(** X30: a drain of [[a, b)] that is consumed to its end does what
    [b - a] calls of [remove(a)] do: the same elements come out, in the
    same order, and the same vector is left. *)
Theorem drain_is_repeated_remove (v : list T) a b k :
  a ≤ b → b ≤ length v → b - a ≤ k →
  Vec.drain_scope moved (a, b) k v = VecOps.remove_n moved (b - a) a v.
Proof.
  intros Hab Hb Hk. rewrite drain_scope_run, remove_n_run by lia.
  rewrite Nat.min_r by lia. do 3 f_equal. lia.
Qed.

End Drain_vs_remove.

(** * The further properties at concrete inputs *)

Example db_session :
  (DbExample.db_handler id (DbExample.Insert "carol" 3);;
   DbExample.db_handler id (DbExample.Update "bob" 20);;
   DbExample.db_handler id (DbExample.Delete "alice");;
   DbExample.db_handler id (DbExample.Delete "dave"))
    (DbExample.mkSt [("alice", 1%Z); ("bob", 2%Z)] [])
  = Ret ()
      (DbExample.mkSt [("bob", 20%Z); ("carol", 3%Z)]
         [DbExample.Str "Inserted: "; DbExample.Str "carol";
          DbExample.Str " -> "; DbExample.Int 3; DbExample.endl;
          DbExample.Str "Updated: "; DbExample.Str "bob";
          DbExample.Str "="; DbExample.Int 20; DbExample.endl;
          DbExample.Str "Deleted: "; DbExample.Str "alice";
          DbExample.Str "="; DbExample.Int 1; DbExample.endl;
          DbExample.Str ("Delete failed: key not found" +:+ DbExample.nl)]).
Proof. reflexivity. Qed.

Lemma index_op_spec_witness :
  (∃ x, [10; 20] !! 1 = Some x
        ∧ Vec.index_op 1 [10; 20] = Ret 1 [10; 20]
        ∧ Vec.read 1 [10; 20] = Ret x [10; 20])
  ∧ Vec.index_op 2 [10; 20]
    = Throw (out_of_range "index out of bounds") [10; 20].
Proof.
  split.
  - apply (proj1 (index_op_spec [10; 20] 1)). simpl. lia.
  - apply (proj2 (index_op_spec [10; 20] 2)). simpl. lia.
Defined.

Lemma insert_remove_roundtrip_witness :
  (Vec.insert 1 15;; Vec.remove id 1) [10; 20] = Ret 15 [10; 20].
Proof. apply (insert_remove_roundtrip id [10; 20] 1 15). simpl. lia. Defined.

Lemma remove_insert_roundtrip_witness :
  (x ← Vec.remove id 1; Vec.insert 1 x) [10; 20; 30] = Ret () [10; 20; 30].
Proof. apply (remove_insert_roundtrip id [10; 20; 30] 1). simpl. lia. Defined.

Lemma tail_ops_are_indexed_witness :
  Vec.pop id [10; 20]
  = (y ← Vec.remove id (length [10; 20] - 1); mret (Some y)) [10; 20].
Proof. apply (proj2 (tail_ops_are_indexed id [10; 20] 0)). discriminate. Defined.

Lemma drain_all_witness :
  Vec.drain_scope id (0, length [10; 20; 30]) 3 [10; 20; 30]
    = Ret [10; 20; 30] []
  ∧ Vec.clear [10; 20; 30] = Ret () [].
Proof. apply (drain_all id [10; 20; 30] 3). simpl. lia. Defined.

Lemma drain_one_is_remove_witness :
  Vec.drain_scope id (1, 2) 1 [10; 20; 30]
  = (x ← Vec.remove id 1; mret [x]) [10; 20; 30].
Proof. apply (drain_one_is_remove id [10; 20; 30] 1 0). simpl. lia. Defined.

Lemma drain_tail_is_truncate_witness :
  Vec.drain_drop (1, length [10; 20; 30]) [10; 20; 30]
  = Vec.truncate 1 [10; 20; 30].
Proof. apply (drain_tail_is_truncate [10; 20; 30] 1). simpl. lia. Defined.


Lemma drain_deferred_witness :
  ∃ v',
    VecOps.drain_iterate (λ _, 0) (1, 3) 1 [10; 20; 30; 40; 50]
    = Ret (take (1 `min` (3 - 1)) (drop 1 [10; 20; 30; 40; 50]),
           Vec.mkDrainIterator Vec.this 1 (1 + 1 `min` (3 - 1)) 3,
           Vec.mksubrange (Vec.mkDrainIterator Vec.nullptr 1 1 3)
                          (Vec.mkDrainSentinel Vec.this 3)) v'
    ∧ v' = take 1 [10; 20; 30; 40; 50]
           ++ ((λ _, 0) <$> take (1 `min` (3 - 1))
                              (drop 1 [10; 20; 30; 40; 50]))
           ++ drop (1 + 1 `min` (3 - 1)) [10; 20; 30; 40; 50]
    ∧ length v' = length [10; 20; 30; 40; 50].
Proof.
  apply (drain_deferred (λ _, 0) [10; 20; 30; 40; 50] 1 3 1); simpl; lia.
Defined.

Lemma move_assign_commits_witness :
  VecOps.DrainIterator_move_assign 0 1
    ([10; 20; 30; 40],
     [Vec.mkDrainIterator Vec.this 0 0 1; Vec.mkDrainIterator Vec.this 2 2 4])
  = Ret () (take 0 [10; 20; 30; 40] ++ drop 1 [10; 20; 30; 40],
            <[1 := Vec.mkDrainIterator Vec.nullptr 2 2 4]>
              (<[0 := Vec.mkDrainIterator Vec.this 2 2 4]>
                 [Vec.mkDrainIterator Vec.this 0 0 1;
                  Vec.mkDrainIterator Vec.this 2 2 4]))
  ∧ VecOps.DrainIterator_move_assign 0 0
      ([10; 20; 30; 40],
       [Vec.mkDrainIterator Vec.this 0 0 1;
        Vec.mkDrainIterator Vec.this 2 2 4])
    = Ret () ([10; 20; 30; 40],
              [Vec.mkDrainIterator Vec.this 0 0 1;
               Vec.mkDrainIterator Vec.this 2 2 4]).
Proof.
  apply (move_assign_commits [10; 20; 30; 40]
           [Vec.mkDrainIterator Vec.this 0 0 1;
            Vec.mkDrainIterator Vec.this 2 2 4]
           0 1 0 0 1 (Vec.mkDrainIterator Vec.this 2 2 4));
    [lia | reflexivity | reflexivity | lia | simpl; lia].
Defined.


Lemma sentinel_to_iterator_witness :
  (∃ it,
     VecOps.DrainSentinel_to_iterator (Vec.mkDrainSentinel Vec.this 2)
       [10; 20; 30] = Ret it [10; 20; 30]
     ∧ Vec.DrainIterator_eq_sentinel it (Vec.mkDrainSentinel Vec.this 2)
       = true
     ∧ Vec.DrainIterator_delete it [10; 20; 30] = Ret () [10; 20; 30])
  ∧ VecOps.DrainSentinel_to_iterator (Vec.mkDrainSentinel Vec.this 3)
      [10] = Panic "std::terminate".
Proof.
  split.
  - apply (proj1 (sentinel_to_iterator [10; 20; 30] 2)). simpl. lia.
  - apply (proj1 (proj2 (sentinel_to_iterator [10] 3))). simpl. lia.
Defined.

Lemma reset_spec_witness :
  OptionOps.reset (OwnOption.Option_of_value 5) = Ret () OwnOption.Option_new
  ∧ OptionOps.assign_none OwnOption._none (OwnOption.Option_of_value 5)
    = Ret () OwnOption.Option_new
  ∧ (OptionOps.reset;; OptionOps.reset) (OwnOption.Option_of_value 5)
    = Ret () OwnOption.Option_new
  ∧ (OptionOps.reset;; OwnOption.has_value) (OwnOption.Option_of_value 5)
    = Ret false OwnOption.Option_new
  ∧ (OptionOps.reset;; OwnOption.value) (OwnOption.Option_of_value 5)
    = Panic "called Option::value() on None".
Proof.
  apply (reset_spec (OwnOption.Option_of_value 5)).
  unfold OptionOps.wf. simpl. split; [eauto|reflexivity].
Defined.

Lemma assign_value_spec_witness :
  OptionOps.assign_value 200 (OwnOption.Option_of_value 5)
    = Ret () (OwnOption.Option_of_value 200)
  ∧ (OptionOps.assign_value 200;; OwnOption.value)
      (OwnOption.Option_of_value 5)
    = Ret 200 (OwnOption.Option_of_value 200)
  ∧ (OptionOps.assign_value 300;; OptionOps.assign_value 200)
      (OwnOption.Option_of_value 5)
    = Ret () (OwnOption.Option_of_value 200).
Proof.
  apply (assign_value_spec (OwnOption.Option_of_value 5) 200 300).
  unfold OptionOps.wf. simpl. split; [eauto|reflexivity].
Defined.

Lemma copy_move_construct_witness :
  OptionOps.Option_copy (OwnOption.Option_of_value 100)
    = Ret (OwnOption.Option_of_value 100) (OwnOption.Option_of_value 100)
  ∧ OptionOps.Option_move id (OwnOption.Option_of_value 100)
    = Ret (OwnOption.Option_of_value 100) OwnOption.Option_new.
Proof.
  apply (copy_move_construct id (OwnOption.Option_of_value 100)).
  unfold OptionOps.wf. simpl. split; [eauto|reflexivity].
Defined.

Lemma assign_between_witness :
  ∃ st1 st2,
    OptionOps.assign_copy 0 1
      [OwnOption.Option_of_value 1; OwnOption.Option_of_value 2] = Ret () st1
    ∧ st1 = <[0 := OwnOption.Option_of_value 2]>
              [OwnOption.Option_of_value 1; OwnOption.Option_of_value 2]
    ∧ OptionOps.assign_move id 0 1
        [OwnOption.Option_of_value 1; OwnOption.Option_of_value 2]
      = Ret () st2
    ∧ st2 = <[1 := OwnOption.Option_new]>
              (<[0 := OwnOption.Option_of_value 2]>
                 [OwnOption.Option_of_value 1; OwnOption.Option_of_value 2])
    ∧ Forall OptionOps.wf st1 ∧ Forall OptionOps.wf st2
    ∧ OptionOps.assign_copy 0 0
        [OwnOption.Option_of_value 1; OwnOption.Option_of_value 2]
      = Ret () [OwnOption.Option_of_value 1; OwnOption.Option_of_value 2]
    ∧ OptionOps.assign_move id 0 0
        [OwnOption.Option_of_value 1; OwnOption.Option_of_value 2]
      = Ret () [OwnOption.Option_of_value 1; OwnOption.Option_of_value 2].
Proof.
  apply (assign_between id
           [OwnOption.Option_of_value 1; OwnOption.Option_of_value 2]
           0 1 (OwnOption.Option_of_value 1) (OwnOption.Option_of_value 2));
    [lia | reflexivity | reflexivity |].
  repeat constructor; unfold OptionOps.wf; simpl; eauto.
Defined.

Lemma and_then_laws_witness :
  OwnOption.and_then (OwnOption.Option_of_value 10)
    (λ x, mret (OptionOps.Some_ x)) 0
  = Ret (OwnOption.Option_of_value 10) 0.
Proof.
  apply (proj1 (and_then_laws (U:=nat) (V:=nat)
                  (OwnOption.Option_of_value 10)
                  (λ x, mret (OptionOps.Some_ x))
                  (λ x, mret (OptionOps.Some_ x)) 0)).
  unfold OptionOps.wf. simpl. split; [eauto|reflexivity].
Defined.

Lemma find_propagates_witness :
  Find.find id ([1; 2] ++ 3 :: [4])
    (λ x, if bool_decide (x = 3) then throw (out_of_range "boom")
          else mret false) ()
  = Throw (out_of_range "boom") ().
Proof.
  unshelve eapply (proj1 (find_propagates id [1; 2] 3 [4] _ () () _)).
  - apply Find.rejects_cons with (w1 := ()); [reflexivity|].
    apply Find.rejects_cons with (w1 := ()); [reflexivity|].
    apply Find.rejects_nil.
  - reflexivity.
Defined.


Lemma drain_is_repeated_remove_witness :
  Vec.drain_scope id (1, 3) 2 [10; 20; 30; 40]
  = VecOps.remove_n id (3 - 1) 1 [10; 20; 30; 40].
Proof.
  apply (drain_is_repeated_remove id [10; 20; 30; 40] 1 3 2); simpl; lia.
Defined.

Lemma delete_handler_spec_witness :
  DbExample.db_handler id (DbExample.Delete "bob")
    (DbExample.mkSt ([("alice", 1%Z)] ++ ("bob", 2%Z) :: [("bob", 3%Z)]) [])
  = Ret ()
      (DbExample.mkSt ([("alice", 1%Z)] ++ [("bob", 3%Z)])
         ([] ++ [DbExample.Str "Deleted: "; DbExample.Str "bob";
                 DbExample.Str "="; DbExample.Int 2; DbExample.endl]))
  ∧ DbExample.db_handler id (DbExample.Delete "bob")
      (DbExample.mkSt [("alice", 1%Z)] [])
    = Ret ()
        (DbExample.mkSt [("alice", 1%Z)]
           ([] ++ [DbExample.Str ("Delete failed: key not found" +:+ DbExample.nl)])).
Proof.
  split.
  - apply (proj1 (delete_handler_spec id "bob" [])
             [("alice", 1%Z)] 2%Z [("bob", 3%Z)]).
    repeat constructor. simpl. discriminate.
  - apply (proj2 (delete_handler_spec id "bob" []) [("alice", 1%Z)]).
    repeat constructor. simpl. discriminate.
Defined.

Lemma update_handler_spec_witness :
  DbExample.db_handler id (DbExample.Update "bob" 20)
    (DbExample.mkSt ([("alice", 1%Z)] ++ ("bob", 2%Z) :: [("bob", 3%Z)]) [])
  = Ret ()
      (DbExample.mkSt ([("alice", 1%Z)] ++ ("bob", 20%Z) :: [("bob", 3%Z)])
         ([] ++ [DbExample.Str "Updated: "; DbExample.Str "bob";
                 DbExample.Str "="; DbExample.Int 20; DbExample.endl]))
  ∧ DbExample.db_handler id (DbExample.Update "bob" 20)
      (DbExample.mkSt [("alice", 1%Z)] [])
    = Ret ()
        (DbExample.mkSt [("alice", 1%Z)]
           ([] ++ [DbExample.Str ("Update failed: key not found" +:+ DbExample.nl)])).
Proof.
  split.
  - apply (proj1 (update_handler_spec id "bob" 20 [])
             [("alice", 1%Z)] 2%Z [("bob", 3%Z)]).
    repeat constructor. simpl. discriminate.
  - apply (proj2 (update_handler_spec id "bob" 20 []) [("alice", 1%Z)]).
    repeat constructor. simpl. discriminate.
Defined.

Lemma select_handler_spec_witness :
  DbExample.db_handler id
    (DbExample.Select "bob"
       (λ z, DbExample.cout [DbExample.Str "Queried value: ";
                             DbExample.Int z; DbExample.endl]))
    (DbExample.mkSt ([("alice", 1%Z)] ++ ("bob", 2%Z) :: [("bob", 3%Z)]) [])
  = DbExample.cout [DbExample.Str "Queried value: "; DbExample.Int 2;
                    DbExample.endl]
      (DbExample.mkSt ([("alice", 1%Z)] ++ ("bob", 2%Z) :: [("bob", 3%Z)])
         [])
  ∧ DbExample.db_handler id
      (DbExample.Select "bob"
         (λ z, DbExample.cout [DbExample.Str "Queried value: ";
                               DbExample.Int z; DbExample.endl]))
      (DbExample.mkSt [("alice", 1%Z)] [])
    = Ret ()
        (DbExample.mkSt [("alice", 1%Z)]
           ([] ++ [DbExample.Str ("Select failed: key not found" +:+ DbExample.nl)])).
Proof.
  split.
  - apply (proj1 (select_handler_spec id "bob"
                    (λ z, DbExample.cout [DbExample.Str "Queried value: ";
                                          DbExample.Int z; DbExample.endl])
                    [])
             [("alice", 1%Z)] 2%Z [("bob", 3%Z)]).
    repeat constructor. simpl. discriminate.
  - apply (proj2 (select_handler_spec id "bob"
                    (λ z, DbExample.cout [DbExample.Str "Queried value: ";
                                          DbExample.Int z; DbExample.endl])
                    [])
             [("alice", 1%Z)]).
    repeat constructor. simpl. discriminate.
Defined.

Lemma insert_delete_roundtrip_witness :
  (DbExample.db_handler id (DbExample.Insert "bob" 2);;
   DbExample.db_handler id (DbExample.Delete "bob"))
    (DbExample.mkSt [("alice", 1%Z)] [])
  = Ret ()
      (DbExample.mkSt [("alice", 1%Z)]
         ([] ++ [DbExample.Str "Inserted: "; DbExample.Str "bob";
                 DbExample.Str " -> "; DbExample.Int 2; DbExample.endl]
             ++ [DbExample.Str "Deleted: "; DbExample.Str "bob";
                 DbExample.Str "="; DbExample.Int 2; DbExample.endl])).
Proof.
  apply (proj1 (insert_delete_roundtrip id "bob" 2 [("alice", 1%Z)] []
                  ltac:(repeat constructor; simpl; discriminate))).
Defined.
